(** * quic-client-linux: the benchmark client of [main.go]

    A shallow embedding of the stream-orchestration and measurement engine
    of the QUIC throughput client: the payload generator, the upload task,
    the download tasks with their shared counters under the mutex, and the
    final report.

    Go's [int] and [time.Duration] are 64-bit signed integers, [uint64] is
    unsigned; they are carried as [Z] with the wrap-around written out.
    [float64] is Rocq's primitive binary64 float.  A byte is a [Z] in
    [0, 256). *)

From Stdlib Require Import ZArith Lia Bool String Uint63 PrimFloat.
From stdpp Require Import base tactics option list.

Local Open Scope Z_scope.

(** ** Machine integers *)

Module GoInt.

(** [int] / [int64] / [time.Duration]: two's complement on 64 bits. *)
Definition wrap (z : Z) : Z := (z + 2 ^ 63) mod 2 ^ 64 - 2 ^ 63.

(** [uint64]. *)
Definition wrapU (z : Z) : Z := z mod 2 ^ 64.

Definition in_range (z : Z) : Prop := - 2 ^ 63 <= z < 2 ^ 63.

(** [byte(x)] for an unsigned [x]: the low-order eight bits. *)
Definition to_byte (z : Z) : Z := z mod 256.

(** [float64(x)] for [x : int]: the nearest binary64, ties to even.
    [of_uint63] covers [0, 2^63); the sign and [-2^63] are handled here. *)
Definition to_float64 (z : Z) : float :=
  if z =? - 2 ^ 63 then (- 0x1p63)%float
  else if z <? 0 then PrimFloat.opp (PrimFloat.of_uint63 (Uint63.of_Z (- z)))
  else PrimFloat.of_uint63 (Uint63.of_Z z).

End GoInt.

(** Sum of a list of integers, and of a measure over a list. *)
Definition Zsum (l : list Z) : Z := foldr Z.add 0 l.

(** ** The payload generator  (main.go, [generatePRData]) *)

Module Payload.

Definition multiplier : Z := 48271.
Definition modulus : Z := 2147483647.

(** One turn of the [for] loop body on the [uint64] seed:
    [seed = seed * 48271 % 2147483647]. *)
Definition next_seed (seed : Z) : Z :=
  GoInt.wrapU (GoInt.wrapU (seed * multiplier) mod modulus).

(** The loop [for i := 0; i < l; i++], by the number of turns left:
    each turn updates the seed and stores [byte(seed)] at index [i]. *)
Fixpoint generatePRData_loop (turns : nat) (i : nat) (seed : Z) (res : list Z)
  : list Z :=
  match turns with
  | O => res
  | S turns' =>
      let seed' := next_seed seed in
      generatePRData_loop turns' (S i) seed' (<[i := GoInt.to_byte seed']> res)
  end.

(** [maxAlloc] of the Go runtime on linux/amd64 (48 address bits):
    [makeslice] panics ("len out of range") for a byte slice longer than
    this. *)
Definition maxAlloc : Z := 2 ^ 48.

(** [make([]byte, l)] panics for a negative [l] and for an [l] above
    [maxAlloc], and the run dies of "out of memory" when [l] is more than
    the [avail] bytes the allocator can still get: all three are [None].
    Otherwise the buffer starts zeroed and the loop fills it. *)
Definition generatePRData (avail : Z) (l : Z) : option (list Z) :=
  if (l <? 0) || (maxAlloc <? l) || (avail <? l) then None
  else Some (generatePRData_loop (Z.to_nat l) 0 1 (replicate (Z.to_nat l) 0)).

(** The Park-Miller sequence in the integers, as the specification words
    it: seeded at 1, [seed * 48271 mod 2147483647]. *)
Definition park_miller (seed : Z) : Z := (seed * 48271) mod 2147483647.

Definition park_miller_nth (k : nat) : Z := Nat.iter k park_miller 1.

End Payload.

(** ** Errors and time *)

(** A Go [error] value as the client tells them apart: [io.EOF] by
    identity, and any other error by whether its dynamic type has a
    [Timeout() bool] method ([None]: no such method) and what it returns. *)
Inductive error :=
| io_EOF
| Err (timeout : option bool) (text : string).

(** [te, ok := rerr.(tErr); ok && te.Timeout()] *)
Definition is_timeout (e : error) : bool :=
  match e with
  | Err (Some true) _ => true
  | _ => false
  end.

(** [time.Second], in nanoseconds. *)
Definition Second : Z := 1000000000.

(** ** The upload task  (main.go, lines 108-140) *)

Module Upload.

(** [64 * 1024] *)
Definition chunk_size : Z := 64 * 1024.

(** [30 * time.Second] *)
Definition write_deadline : Z := 30 * Second.

(** What one upload goroutine does to its stream, in order.
    [SetWriteDeadline d] is [stream.SetWriteDeadline(time.Now().Add(d))]. *)
Inductive event :=
| SetWriteDeadline (after : Z)
| Write (p : list Z)
| LogWriteError (e : error)
| Close.

Inductive outcome :=
| Completed
| Aborted (e : error)
| Panicked
| OutOfFuel.

(** [n, err := stream.Write(p)] *)
Record write_result := { wn : Z; werr : option error }.

(** The stream as the task sees it: the answer to the [k]-th [Write],
    given the bytes passed. *)
Definition writer := nat → list Z → write_result.

(** [msg[lo:hi]]; out of bounds is a run-time panic. *)
Definition slice (msg : list Z) (lo hi : Z) : option (list Z) :=
  if (0 <=? lo) && (lo <=? hi) && (hi <=? Z.of_nat (length msg))
  then Some (take (Z.to_nat (hi - lo)) (drop (Z.to_nat lo) msg))
  else None.

(** The loop [for remaining > 0 { ... }] of lines 123-138; [k] counts the
    [Write] calls made so far. *)
Fixpoint write_loop (fuel : nat) (w : writer) (msg : list Z)
    (k : nat) (off remaining : Z) : list event * outcome :=
  match fuel with
  | O => ([], OutOfFuel)
  | S fuel' =>
      if 0 <? remaining then
        let chunk := if remaining <? chunk_size then remaining else chunk_size in
        match slice msg off (GoInt.wrap (off + chunk)) with
        | None => ([], Panicked)
        | Some p =>
            let r := w k p in
            match werr r with
            | Some e => ([Write p; LogWriteError e], Aborted e)
            | None =>
                let rest :=
                  write_loop fuel' w msg (S k)
                    (GoInt.wrap (off + wn r)) (GoInt.wrap (remaining - wn r)) in
                (Write p :: SetWriteDeadline write_deadline :: rest.1, rest.2)
            end
        end
      else ([], Completed)
  end.

(** The goroutine body: the first deadline, the loop, and the deferred
    [stream.Close()], which runs on every way out. *)
Definition upload_task (fuel : nat) (w : writer) (msg : list Z)
  : list event * outcome :=
  let r := write_loop fuel w msg 0 0 (Z.of_nat (length msg)) in
  (SetWriteDeadline write_deadline :: r.1 ++ [Close], r.2).

(** One turn of [for i := 0; i < *numberStream; i++]: the stream is
    opened; on error the slot is logged and skipped. *)
Record slot_env := { open_err : option error; wr : writer }.

Inductive slot_result :=
| OpenFailed (e : error)
| Ran (tr : list event) (o : outcome).

Definition upload_slot (fuel : nat) (msg : list Z) (e : slot_env) : slot_result :=
  match open_err e with
  | Some err => OpenFailed err
  | None => let r := upload_task fuel (wr e) msg in Ran r.1 r.2
  end.

Definition upload_phase (fuel : nat) (msg : list Z) (envs : list slot_env)
  : list slot_result :=
  upload_slot fuel msg <$> envs.

(** The bytes handed to [Write], in order. *)
Definition written (tr : list event) : list (list Z) :=
  omap (λ ev, match ev with Write p => Some p | _ => None end) tr.

(** The payload cut in pieces of [chunk_size], the last one shorter. *)
Fixpoint chunks (pieces : nat) (msg : list Z) : list (list Z) :=
  match pieces with
  | O => []
  | S pieces' =>
      match msg with
      | [] => []
      | _ => take (Z.to_nat chunk_size) msg
             :: chunks pieces' (drop (Z.to_nat chunk_size) msg)
      end
  end.

(** A stream on which every [Write] succeeds, taking all the bytes it is
    given (what [io.Writer] asks of a [Write] that returns no error). *)
Definition good_writer (w : writer) : Prop :=
  ∀ k p, w k p = {| wn := Z.of_nat (length p); werr := None |}.


(** A stream that takes every write. *)
Definition take_all : writer :=
  λ _ p, {| wn := Z.of_nat (length p); werr := None |}.

(** A stream that keeps to what [io.Writer] asks of the count:
    [0 <= n <= len(p)], with or without an error. *)
Definition contract_writer (w : writer) : Prop :=
  ∀ k p, 0 <= wn (w k p) <= Z.of_nat (length p).

(** A stream that never fails but may take only a part of what it is
    given, at least one byte. *)
Definition short_writer (w : writer) : Prop :=
  ∀ k p, werr (w k p) = None ∧ (p ≠ [] → 0 < wn (w k p) <= Z.of_nat (length p)).

(** A stream that takes nothing and reports no error. *)
Definition stuck_writer : writer := λ _ _, {| wn := 0; werr := None |}.

(** The bytes the stream took: of the [k]-th [Write p] the first [n]
    bytes, [n] being the count that [Write] returned. *)
Fixpoint accepted_from (w : writer) (k : nat) (tr : list event) : list Z :=
  match tr with
  | [] => []
  | Write p :: tr' => take (Z.to_nat (wn (w k p))) p ++ accepted_from w (S k) tr'
  | _ :: tr' => accepted_from w k tr'
  end.

(** The deadlines set, in order. *)
Definition deadlines (tr : list event) : list Z :=
  omap (λ ev, match ev with SetWriteDeadline d => Some d | _ => None end) tr.

End Upload.

(** ** The download tasks  (main.go, lines 147-238) *)

Module Download.

(** The command-line flags. *)
Record flags := {
  numberStream : Z;
  dataSize : Z;
  downloadUni : bool;
  readTO : Z;
  idleTO : Z
}.

(** [30*time.Second] of both [context.WithTimeout] calls. *)
Definition accept_timeout : Z := 30 * Second.

(** Which of the two read loops: the duplex one (lines 209-234) or the
    one-way one (lines 176-205). *)
Inductive dir := Bidi | Uni.

(** [n, rerr := s.Read(buf)] *)
Record read_result := { rn : Z; rerr : option error }.

(** What the peer and the clock do to one goroutine. *)
Record env := {
  accept_bidi : option error;   (* sess.AcceptStream(ctx); nil: a stream *)
  accept_uni : option error;    (* sess.AcceptUniStream(ctx2) *)
  uni_has_deadline : bool;      (* any(us).(rd) succeeds; it does on what
                                   AcceptUniStream returns, whose type
                                   declares SetReadDeadline *)
  reads : nat → read_result;    (* the k-th Read on the accepted stream *)
  elapsed : Z                   (* time.Since(t1) *)
}.

(** What one goroutine does, in order.  [EvAdd] and [EvAppend] mark the
    two stores to the shared variables. *)
Inductive event :=
| EvAcceptStream (timeout : Z)
| EvAcceptUniStream (timeout : Z)
| EvLogAcceptError (err uerr : error)
| EvSetReadDeadline (after : Z)
| EvRead (n : Z) (rerr : option error)
| EvAdd (n : Z)
| EvAppend (d : Z)
| EvClose.

(** Program points of the goroutine of lines 156-235. *)
Inductive pc :=
| AcceptBidi                                    (* 160-162 *)
| AcceptUni (err : error)                       (* 167-169 *)
| LogFail (err uerr : error)                    (* 171-172 *)
| Arm (d : dir)                                 (* 181-183 / 213 *)
| Read (d : dir)                                (* 184-185 / 214-215 *)
| Lock (d : dir) (n : Z) (rerr : option error)  (* 186 / 216 *)
| Load (d : dir) (n : Z) (rerr : option error)  (* 187 / 217, total read *)
| Store (d : dir) (n : Z) (rerr : option error) (tmp : Z)
| Unlock (d : dir) (rerr : option error)        (* 188 / 218 *)
| Check (d : dir) (rerr : option error)         (* 190-200 / 220-230 *)
| TimesLock (d : dir)                           (* 202 / 232 *)
| TimesLoad (d : dir)                           (* 203 / 233, times read *)
| TimesStore (d : dir) (tmp : list Z)
| TimesUnlock (d : dir)                         (* 204 / 234 *)
| CloseStream                                   (* deferred s.Close(), 209 *)
| Done.

Record task := { at_pc : pc; nreads : nat; trace : list event }.

(** [total], [times] and [mu]. *)
Record shared := { total : Z; times : list Z; locked : bool }.

Definition goto (t : task) (p : pc) (evs : list event) : task :=
  {| at_pc := p; nreads := nreads t; trace := trace t ++ evs |}.

Definition set_locked (s : shared) (b : bool) : shared :=
  {| total := total s; times := times s; locked := b |}.

Definition set_total (s : shared) (z : Z) : shared :=
  {| total := z; times := times s; locked := locked s |}.

Definition set_times (s : shared) (l : list Z) : shared :=
  {| total := total s; times := l; locked := locked s |}.

(** Where the [if rerr != nil { ... }] block of a read loop leads. *)
Definition after_read (d : dir) (rerr : option error) : pc :=
  match rerr with
  | None => Arm d
  | Some io_EOF => TimesLock d
  | Some e => if is_timeout e then Arm d else TimesLock d
  end.

(** One step of one goroutine; [None] when it cannot move (it waits for
    the mutex, or it has returned). *)
Definition task_step (fl : flags) (e : env) (t : task) (s : shared)
  : option (task * shared) :=
  match at_pc t with
  | AcceptBidi =>
      match accept_bidi e with
      | Some err => Some (goto t (AcceptUni err) [EvAcceptStream accept_timeout], s)
      | None => Some (goto t (Arm Bidi) [EvAcceptStream accept_timeout], s)
      end
  | AcceptUni err =>
      match accept_uni e with
      | Some uerr =>
          Some (goto t (LogFail err uerr) [EvAcceptUniStream accept_timeout], s)
      | None => Some (goto t (Arm Uni) [EvAcceptUniStream accept_timeout], s)
      end
  | LogFail err uerr => Some (goto t Done [EvLogAcceptError err uerr], s)
  | Arm Bidi => Some (goto t (Read Bidi) [EvSetReadDeadline (readTO fl)], s)
  | Arm Uni =>
      Some (goto t (Read Uni)
              (if uni_has_deadline e then [EvSetReadDeadline (readTO fl)] else []),
            s)
  | Read d =>
      let r := reads e (nreads t) in
      Some ({| at_pc := if 0 <? rn r then Lock d (rn r) (rerr r)
                        else Check d (rerr r);
               nreads := S (nreads t);
               trace := trace t ++ [EvRead (rn r) (rerr r)] |}, s)
  | Lock d n re =>
      if locked s then None else Some (goto t (Load d n re) [], set_locked s true)
  | Load d n re => Some (goto t (Store d n re (total s)) [], s)
  | Store d n re tmp =>
      Some (goto t (Unlock d re) [EvAdd n], set_total s (GoInt.wrap (tmp + n)))
  | Unlock d re => Some (goto t (Check d re) [], set_locked s false)
  | Check d re => Some (goto t (after_read d re) [], s)
  | TimesLock d =>
      if locked s then None else Some (goto t (TimesLoad d) [], set_locked s true)
  | TimesLoad d => Some (goto t (TimesStore d (times s)) [], s)
  | TimesStore d tmp =>
      Some (goto t (TimesUnlock d) [EvAppend (elapsed e)],
            set_times s (tmp ++ [elapsed e]))
  | TimesUnlock d =>
      Some (goto t (match d with Bidi => CloseStream | Uni => Done end) [],
            set_locked s false)
  | CloseStream => Some (goto t Done [EvClose], s)
  | Done => None
  end.

(** The whole download phase: the shared variables and one goroutine per
    expected stream. *)
Record config := { sh : shared; tasks : list task }.

Definition init_task : task := {| at_pc := AcceptBidi; nreads := 0; trace := [] |}.

(** [expected := *numberStream] goroutines are started (lines 151-156). *)
Definition init (fl : flags) : config :=
  {| sh := {| total := 0; times := []; locked := false |};
     tasks := replicate (Z.to_nat (numberStream fl)) init_task |}.

(** Goroutine [i] takes one step. *)
Definition step (fl : flags) (envs : nat → env) (i : nat) (c : config)
  : option config :=
  match tasks c !! i with
  | None => None
  | Some t =>
      match task_step fl (envs i) t (sh c) with
      | None => None
      | Some (t', s') => Some {| sh := s'; tasks := <[i := t']> (tasks c) |}
      end
  end.

(** An interleaving: the goroutines named by the schedule move in turn;
    a goroutine that cannot move leaves the configuration as it is. *)
Fixpoint run (fl : flags) (envs : nat → env) (sched : list nat) (c : config)
  : config :=
  match sched with
  | [] => c
  | i :: sched' => run fl envs sched' (default c (step fl envs i c))
  end.

(** One goroutine on its own, for [n] steps. *)
Fixpoint run_task (fl : flags) (e : env) (n : nat) (ts : task * shared)
  : task * shared :=
  match n with
  | O => ts
  | S n' => run_task fl e n' (default ts (task_step fl e ts.1 ts.2))
  end.

Definition is_done (t : task) : bool :=
  match at_pc t with Done => true | _ => false end.

(** [w.Wait()] returns when every goroutine has returned. *)
Definition all_done (c : config) : bool := forallb is_done (tasks c).

(** The bytes a goroutine has added to [total], and the durations it has
    appended to [times], read off its trace. *)
Definition ev_bytes (ev : event) : Z :=
  match ev with EvAdd n => n | _ => 0 end.

Definition added (t : task) : Z := Zsum (ev_bytes <$> trace t).

Definition ev_dur (ev : event) : option Z :=
  match ev with EvAppend d => Some d | _ => None end.

Definition recorded (t : task) : list Z := omap ev_dur (trace t).

(** A goroutine is inside a critical section between [mu.Lock()] and
    [mu.Unlock()]. *)
Definition in_cs (t : task) : bool :=
  match at_pc t with
  | Load _ _ _ | Store _ _ _ _ | Unlock _ _
  | TimesLoad _ | TimesStore _ _ | TimesUnlock _ => true
  | _ => false
  end.

(** One when the goroutine is inside a critical section. *)
Definition cs (t : task) : Z := if in_cs t then 1 else 0.

(** A value read under the lock and not yet written back. *)
Definition tmp_ok (s : shared) (t : task) : Prop :=
  match at_pc t with
  | Store _ _ _ tmp => tmp = total s
  | TimesStore _ tmp => tmp = times s
  | _ => True
  end.

(** The invariant of the download phase. *)
Record inv (c : config) : Prop := {
  inv_total : total (sh c) = GoInt.wrap (Zsum (added <$> tasks c));
  inv_times : times (sh c) ≡ₚ concat (recorded <$> tasks c);
  inv_mutex : Zsum (cs <$> tasks c) = if locked (sh c) then 1 else 0;
  inv_tmp : ∀ i t, tasks c !! i = Some t → tmp_ok (sh c) t
}.

(** The [Read] calls that have returned, read off the trace. *)
Definition ev_read (ev : event) : option read_result :=
  match ev with EvRead n re => Some {| rn := n; rerr := re |} | _ => None end.

Definition reads_returned (t : task) : list read_result := omap ev_read (trace t).

(** The condition the specification puts on a duration entry: the
    stream "yielded at least one read", a [Read] that returned bytes. *)
Definition yielded_read (t : task) : bool :=
  existsb (λ r, 0 <? rn r) (reads_returned t).

(** What holds of one goroutine at each program point: before a stream
    is accepted nothing was read, added or recorded; inside a read loop
    no duration is recorded yet; past the append exactly one is. *)
Definition local_inv (e : env) (t : task) : Prop :=
  nreads t = length (reads_returned t) ∧
  match at_pc t with
  | AcceptBidi | AcceptUni _ | LogFail _ _ =>
      nreads t = 0%nat ∧ added t = 0 ∧ recorded t = []
  | Arm _ | Read _ => recorded t = []
  | Lock _ _ _ | Load _ _ _ | Store _ _ _ _ | Unlock _ _ | Check _ _
  | TimesLock _ | TimesLoad _ | TimesStore _ _ =>
      recorded t = [] ∧ (1 <= nreads t)%nat
  | TimesUnlock _ | CloseStream =>
      recorded t = [elapsed e] ∧ (1 <= nreads t)%nat
  | Done =>
      (nreads t = 0%nat ∧ added t = 0 ∧ recorded t = [])
      ∨ (recorded t = [elapsed e] ∧ (1 <= nreads t)%nat)
  end.

(** The order of the accepts in a trace: the duplex accept comes first,
    a one-way accept can only be the event right after it, and there is
    no other accept; both carry the 30-second timeout. *)
Definition is_accept (ev : event) : bool :=
  match ev with
  | EvAcceptStream _ | EvAcceptUniStream _ => true
  | _ => false
  end.

Definition no_accept (tr : list event) : bool :=
  forallb (λ ev, negb (is_accept ev)) tr.

Definition accept_order (tr : list event) : bool :=
  match tr with
  | [] => true
  | EvAcceptStream a :: rest =>
      (a =? accept_timeout)
      && match rest with
         | EvAcceptUniStream u :: rest' => (u =? accept_timeout) && no_accept rest'
         | _ => no_accept rest
         end
  | _ => false
  end.

Definition order_inv (t : task) : Prop :=
  accept_order (trace t) = true ∧
  match at_pc t with
  | AcceptBidi => trace t = []
  | AcceptUni _ => trace t = [EvAcceptStream accept_timeout]
  | _ => trace t ≠ []
  end.

(** Two settings of the flags that differ at most in [-uni]. *)
Definition same_but_uni (fl1 fl2 : flags) : Prop :=
  numberStream fl1 = numberStream fl2 ∧ dataSize fl1 = dataSize fl2 ∧
  readTO fl1 = readTO fl2 ∧ idleTO fl1 = idleTO fl2.

(** A slot for which neither accept gives a stream, and the program
    points its goroutine can be at. *)
Definition fails (e : env) : Prop :=
  is_Some (accept_bidi e) ∧ is_Some (accept_uni e).

Definition on_fail_path (t : task) : Prop :=
  match at_pc t with
  | AcceptBidi | AcceptUni _ | LogFail _ _ | Done => True
  | _ => False
  end.

(** The deadline events at the head of a read loop: always on the
    duplex stream, on the one-way stream when it has the method. *)
Definition arm_events (fl : flags) (e : env) (d : dir) : list event :=
  match d with
  | Bidi => [EvSetReadDeadline (readTO fl)]
  | Uni => if uni_has_deadline e then [EvSetReadDeadline (readTO fl)] else []
  end.

(** The program points of a read loop before its exit. *)
Definition in_loop (p : pc) : bool :=
  match p with
  | Arm _ | Read _ | Lock _ _ _ | Load _ _ _ | Store _ _ _ _ | Unlock _ _
  | Check _ _ => true
  | _ => false
  end.

(** Same shared state, and the same goroutines but for slot [i]. *)
Definition agree (i : nat) (c1 c2 : config) : Prop :=
  sh c1 = sh c2 ∧ ∀ j, j ≠ i → tasks c1 !! j = tasks c2 !! j.

(** The flags with [-uni] set to [b]. *)
Definition set_downloadUni (fl : flags) (b : bool) : flags :=
  {| numberStream := numberStream fl; dataSize := dataSize fl;
     downloadUni := b; readTO := readTO fl; idleTO := idleTO fl |}.

(** Whether the error of a [Read] ends the loop: [io.EOF] and every
    error that is not a timeout do, no error and a timeout do not. *)
Definition exits (re : option error) : bool :=
  match re with
  | None => false
  | Some io_EOF => true
  | Some e => negb (is_timeout e)
  end.

(** The bytes of a [Read] that count: [n] when [n > 0]. *)
Definition pos_bytes (r : read_result) : Z := if 0 <? rn r then rn r else 0.

(** The bytes the [Read] calls of a goroutine have returned so far. *)
Definition bytes_read (t : task) : Z := Zsum (pos_bytes <$> reads_returned t).

(** The bytes of the current [Read] that are still to be added. *)
Definition pending (p : pc) : Z :=
  match p with
  | Lock _ n _ | Load _ n _ | Store _ n _ _ => n
  | _ => 0
  end.

(** The [Close] calls of a goroutine on its stream. *)
Definition ev_close (ev : event) : option unit :=
  match ev with EvClose => Some () | _ => None end.

Definition closes (t : task) : nat := length (omap ev_close (trace t)).

(** The read loop a goroutine is in agrees with what the accepts gave. *)
Definition dir_ok (e : env) (d : dir) : Prop :=
  match d with
  | Bidi => accept_bidi e = None
  | Uni => is_Some (accept_bidi e) ∧ accept_uni e = None
  end.

(** None of the first [m] reads ends the loop. *)
Definition nonexit_before (e : env) (m : nat) : Prop :=
  ∀ k : nat, (k < m)%nat → exits (rerr (reads e k)) = false.

(** The last [Read] returned [n] bytes and the error [re], and no read
    before it ended the loop. *)
Definition current (e : env) (t : task) (n : Z) (re : option error) : Prop :=
  (1 <= nreads t)%nat ∧ n = rn (reads e (pred (nreads t)))
  ∧ re = rerr (reads e (pred (nreads t)))
  ∧ nonexit_before e (pred (nreads t)).

(** The last [Read] ended the loop, and no read before it did. *)
Definition exited (e : env) (t : task) : Prop :=
  (1 <= nreads t)%nat ∧ exits (rerr (reads e (pred (nreads t)))) = true
  ∧ nonexit_before e (pred (nreads t)).

(** How one goroutine stands to its peer at each program point: its
    reads are the answers of the peer in order, the bytes it has added
    are the bytes read but for those of a read in progress, it is in the
    loop of the stream it was given, and it has closed nothing before
    its deferred [Close]. *)
Definition peer_inv (e : env) (t : task) : Prop :=
  reads_returned t = reads e <$> seq 0 (nreads t) ∧
  added t + pending (at_pc t) = bytes_read t ∧
  match at_pc t with
  | AcceptBidi => nreads t = 0%nat ∧ closes t = 0%nat
  | AcceptUni err => accept_bidi e = Some err ∧ nreads t = 0%nat ∧ closes t = 0%nat
  | LogFail err uerr =>
      accept_bidi e = Some err ∧ accept_uni e = Some uerr
      ∧ nreads t = 0%nat ∧ closes t = 0%nat
  | Arm d | Read d => dir_ok e d ∧ nonexit_before e (nreads t) ∧ closes t = 0%nat
  | Lock d n re | Load d n re | Store d n re _ =>
      dir_ok e d ∧ 0 < n ∧ current e t n re ∧ closes t = 0%nat
  | Unlock d re | Check d re =>
      dir_ok e d ∧ current e t (rn (reads e (pred (nreads t)))) re
      ∧ closes t = 0%nat
  | TimesLock d | TimesLoad d | TimesStore d _ | TimesUnlock d =>
      dir_ok e d ∧ exited e t ∧ closes t = 0%nat
  | CloseStream => dir_ok e Bidi ∧ exited e t ∧ closes t = 0%nat
  | Done =>
      (fails e ∧ nreads t = 0%nat ∧ closes t = 0%nat)
      ∨ (dir_ok e Bidi ∧ exited e t ∧ closes t = 1%nat)
      ∨ (dir_ok e Uni ∧ exited e t ∧ closes t = 0%nat)
  end.

(** Whether one of the two accepts gives a stream. *)
Definition got_stream (e : env) : bool :=
  match accept_bidi e, accept_uni e with
  | Some _, Some _ => false
  | _, _ => true
  end.

(** Two peers that answer the accepts and the reads alike; the time
    the reads take and the deadline method are left open. *)
Definition same_answers (e1 e2 : env) : Prop :=
  accept_bidi e1 = accept_bidi e2 ∧ accept_uni e1 = accept_uni e2 ∧
  ∀ k, reads e1 k = reads e2 k.

(** What a slot leaves in [times] once its goroutine has returned. *)
Definition slot_duration (e : env) : list Z :=
  if got_stream e then [elapsed e] else [].


(** How often a schedule names goroutine [i]. *)
Definition turns (i : nat) (sched : list nat) : nat :=
  length (filter (λ k, k = i) sched).

Definition is_read_event (ev : event) : bool :=
  match ev with EvRead _ _ => true | _ => false end.

(** Every [Read] in the trace comes right after a
    [SetReadDeadline] of [readTO] from now. *)
Definition reads_armed (fl : flags) (tr : list event) : Prop :=
  ∀ (k : nat) n re, tr !! k = Some (EvRead n re) →
    ∃ k' : nat, k = S k' ∧ tr !! k' = Some (EvSetReadDeadline (readTO fl)).

(** The stream of the slot can take a read deadline: it is the duplex
    one, or the one-way one with the method. *)
Definition deadline_capable (e : env) : Prop :=
  uni_has_deadline e = true ∨ accept_bidi e = None.

(** On such a stream every read so far had its deadline, and a
    goroutine about to [Read] has just set one. *)
Definition arm_inv (fl : flags) (e : env) (t : task) : Prop :=
  deadline_capable e →
  reads_armed fl (trace t) ∧
  (∀ d, at_pc t = Read d →
     ∃ tr', trace t = tr' ++ [EvSetReadDeadline (readTO fl)]).

End Download.

(** ** The report  (main.go, lines 242-258) *)

Module Report.

(** [const ratio = 1048576] *)
Definition ratio : Z := 1048576.

(** [time.Duration.Seconds] of the Go library: whole seconds plus the
    nanosecond remainder over [1e9]. *)
Definition Seconds (d : Z) : float :=
  (GoInt.to_float64 (d ÷ Second) + GoInt.to_float64 (Z.rem d Second) / 1e9)%float.

(** What the report stage does that can be seen: the divisions it
    evaluates and the lines it prints. *)
Inductive effect :=
| IntDiv (a b : Z)
| FloatDiv (a b : float)
| Println (s : string)
| PrintReceived (total : Z) (streams : Z)
| PrintSpeed (Mbps : float).

(** [for _, d := range times { totalDur += d }] *)
Definition totalDur (times : list Z) : Z :=
  foldl (λ acc d, GoInt.wrap (acc + d)) 0 times.

(** [a / b] on [int64]: division by zero panics ([None]); the quotient is
    truncated towards zero. *)
Definition int_quo (a b : Z) : option Z :=
  if b =? 0 then None else Some (GoInt.wrap (a ÷ b)).

(** [float64(total*8) / avgDur.Seconds()] *)
Definition bps (total avgDur : Z) : float :=
  (GoInt.to_float64 (GoInt.wrap (total * 8)) / Seconds avgDur)%float.

(** [bps / ratio] *)
Definition Mbps (total avgDur : Z) : float :=
  (bps total avgDur / GoInt.to_float64 ratio)%float.

(** Lines 242-258; [None] is a run-time panic. *)
Definition report (total : Z) (times : list Z) : option (list effect) :=
  let len := Z.of_nat (length times) in
  if (len =? 0) || (total =? 0) then Some [Println "No data received."]
  else
    match int_quo (totalDur times) len with
    | None => None
    | Some avgDur =>
        Some [ IntDiv (totalDur times) len;
               FloatDiv (GoInt.to_float64 (GoInt.wrap (total * 8))) (Seconds avgDur);
               FloatDiv (bps total avgDur) (GoInt.to_float64 ratio);
               PrintReceived total len;
               PrintSpeed (Mbps total avgDur);
               Println "Test finished successfully." ]
    end.

(** The main goroutine after the download loop: it waits for every
    goroutine and then reports. *)
Definition main_after_download (c : Download.config) : option (option (list effect)) :=
  if Download.all_done c
  then Some (report (Download.total (Download.sh c)) (Download.times (Download.sh c)))
  else None.

Definition is_division (ef : effect) : bool :=
  match ef with IntDiv _ _ | FloatDiv _ _ => true | _ => false end.

Definition is_speed (ef : effect) : bool :=
  match ef with PrintSpeed _ => true | _ => false end.

(** The throughput as the specification words it, in the integers and
    without wrap-around: the sum of the durations over their count, and
    eight times the bytes over the average in seconds, over 1,048,576. *)
Definition spec_average (times : list Z) : Z :=
  Zsum times ÷ Z.of_nat (length times).

Definition spec_Mbps (total : Z) (times : list Z) : float :=
  ((GoInt.to_float64 (total * 8) / Seconds (spec_average times)) / 1048576)%float.

End Report.

(** ** The whole run  (main.go, lines 93-258) *)

Module Main.

(** What the peer does to the run: the answer to the dial, to every
    [OpenStreamSync] and [Write] of the upload phase, and to every accept
    and [Read] of the download phase. *)
Record peer := {
  dial : option error;
  up : nat → Upload.slot_env;
  down : nat → Download.env
}.

Inductive result :=
| DialFailed (e : error)          (* lines 95-98 *)
| MakePanicked                    (* make([]byte, l) fails, line 103 *)
| UploadPanicked (uploads : list Upload.slot_result)
| UploadWaiting (uploads : list Upload.slot_result)
| Waiting (uploads : list Upload.slot_result) (c : Download.config)
| Finished (uploads : list Upload.slot_result) (c : Download.config)
           (out : option (list Report.effect)).

(** The slots of the upload loop, [i = 0 .. *numberStream - 1]. *)
Definition upload_slots (fl : Download.flags) (p : peer) : list Upload.slot_env :=
  up p <$> seq 0 (Z.to_nat (Download.numberStream fl)).

(** An upload goroutine that panicked: the whole process dies. *)
Definition slot_panicked (r : Upload.slot_result) : bool :=
  match r with
  | Upload.Ran _ Upload.Panicked => true
  | _ => false
  end.

(** An upload goroutine that is still in its loop after [fuel] turns:
    [w.Wait()] of line 141 has not returned. *)
Definition slot_stuck (r : Upload.slot_result) : bool :=
  match r with
  | Upload.Ran _ Upload.OutOfFuel => true
  | _ => false
  end.

(** Every upload goroutine that was started has returned. *)
Definition uploads_ended (ups : list Upload.slot_result) : Prop :=
  Forall (λ r, slot_panicked r = false ∧ slot_stuck r = false) ups.

(** [main] after the flags are parsed: dial, the payload (with [avail]
    bytes of memory at hand), the upload phase up to its barrier, the
    download phase on the schedule [sched] up to its barrier, and the
    report.  A panic in an upload goroutine ends the run
    ([UploadPanicked]); while one is still in its loop, after the [fuel]
    turns the run is watched for, the barrier of line 141 is not passed
    ([UploadWaiting]) and the download phase has not started.  [Waiting]
    is a run whose schedule leaves some download goroutine unfinished at
    the barrier of line 238. *)
Definition main (fl : Download.flags) (fuel : nat) (avail : Z) (p : peer)
    (sched : list nat) : result :=
  match dial p with
  | Some e => DialFailed e
  | None =>
      match Payload.generatePRData avail (Download.dataSize fl) with
      | None => MakePanicked
      | Some msg =>
          let ups := Upload.upload_phase fuel msg (upload_slots fl p) in
          if existsb slot_panicked ups then UploadPanicked ups
          else if existsb slot_stuck ups then UploadWaiting ups
          else
            let c := Download.run fl (down p) sched (Download.init fl) in
            match Report.main_after_download c with
            | None => Waiting ups c
            | Some out => Finished ups c out
            end
      end
  end.

(** The bytes one upload slot handed to its stream. *)
Definition slot_bytes (r : Upload.slot_result) : list Z :=
  match r with
  | Upload.OpenFailed _ => []
  | Upload.Ran tr _ => concat (Upload.written tr)
  end.

(** The upload results a run got to. *)
Definition uploads (r : result) : list Upload.slot_result :=
  match r with
  | UploadPanicked ups | UploadWaiting ups
  | Waiting ups _ | Finished ups _ _ => ups
  | _ => []
  end.

End Main.

(** ** Some peers and schedules to run the model on *)

Module Scenario.
Import Download.

Definition fl2 : flags :=
  {| numberStream := 2; dataSize := 262144; downloadUni := false;
     readTO := 30 * Second; idleTO := 45 * Second |}.

Definition deadline_exceeded : error := Err (Some true) "deadline exceeded".

(** One read of [n] bytes, then end of stream. *)
Definition one_read (n : Z) : nat → read_result :=
  λ k, match k with
       | O => {| rn := n; rerr := None |}
       | _ => {| rn := 0; rerr := Some io_EOF |}
       end.

(** [k] timeouts, then end of stream. *)
Definition timeouts_then_eof (k : nat) (te : error) : nat → read_result :=
  λ j, if (j <? k)%nat then {| rn := 0; rerr := Some te |}
       else {| rn := 0; rerr := Some io_EOF |}.

(** A peer that answers with a duplex stream carrying [n] bytes. *)
Definition bidi_env (n dur : Z) : env :=
  {| accept_bidi := None; accept_uni := None; uni_has_deadline := true;
     reads := one_read n; elapsed := dur |}.

(** A peer that answers with a one-way stream carrying [n] bytes. *)
Definition uni_env (n dur : Z) : env :=
  {| accept_bidi := Some deadline_exceeded; accept_uni := None;
     uni_has_deadline := true; reads := one_read n; elapsed := dur |}.

(** A peer that closes its stream at once, without a byte. *)
Definition empty_env (dur : Z) : env :=
  {| accept_bidi := None; accept_uni := None; uni_has_deadline := true;
     reads := λ _, {| rn := 0; rerr := Some io_EOF |}; elapsed := dur |}.

(** No stream at all for this slot. *)
Definition no_stream_env : env :=
  {| accept_bidi := Some deadline_exceeded; accept_uni := Some deadline_exceeded;
     uni_has_deadline := true; reads := one_read 0; elapsed := 0 |}.

(** A stream that stalls [k] times before it ends. *)
Definition stalling_env (k : nat) : env :=
  {| accept_bidi := None; accept_uni := None; uni_has_deadline := true;
     reads := timeouts_then_eof k deadline_exceeded; elapsed := 0 |}.

(** Goroutines [0 .. n-1] in turn, [rounds] times. *)
Definition round_robin (n rounds : nat) : list nat :=
  concat (replicate rounds (seq 0 n)).

(** Slot 0 gets no stream, the others a duplex stream of 5 bytes. *)
Definition envs_one_missing : nat → env :=
  λ i, match i with O => no_stream_env | _ => bidi_env 5 1000 end.

(** Every slot gets a duplex stream of 5 bytes. *)
Definition envs_all_five : nat → env := λ _, bidi_env 5 1000.

(** The same streams, read in a time that grows with the slot. *)
Definition envs_all_five_slower : nat → env :=
  λ i, bidi_env 5 (2000 + Z.of_nat i).

(** One expected stream. *)
Definition fl1 : flags :=
  {| numberStream := 1; dataSize := 262144; downloadUni := false;
     readTO := 30 * Second; idleTO := 45 * Second |}.

(** A one-way stream that stalls [k] times before it ends. *)
Definition stalling_uni_env (k : nat) : env :=
  {| accept_bidi := Some deadline_exceeded; accept_uni := None;
     uni_has_deadline := true;
     reads := timeouts_then_eof k deadline_exceeded; elapsed := 0 |}.

(** Flags for a small run: two streams of three bytes. *)
Definition fl_small : flags :=
  {| numberStream := 2; dataSize := 3; downloadUni := false;
     readTO := 30 * Second; idleTO := 45 * Second |}.

(** The memory at hand in the small runs: one megabyte. *)
Definition memory : Z := 1048576.

(** A peer that takes every upload and then opens no stream. *)
Definition silent_peer : Main.peer :=
  {| Main.dial := None;
     Main.up := λ _, {| Upload.open_err := None; Upload.wr := Upload.take_all |};
     Main.down := λ _, no_stream_env |}.

End Scenario.

(** * Properties *)

(** ** Integer facts *)

Lemma wrap_small z : GoInt.in_range z → GoInt.wrap z = z.
Proof.
  unfold GoInt.in_range, GoInt.wrap. intros H.
  rewrite Z.mod_small by lia. lia.
Qed.

Lemma wrap_in_range z : GoInt.in_range (GoInt.wrap z).
Proof.
  unfold GoInt.in_range, GoInt.wrap.
  pose proof (Z.mod_pos_bound (z + 2 ^ 63) (2 ^ 64)) as H. lia.
Qed.

Lemma wrap_add_l a b : GoInt.wrap (GoInt.wrap a + b) = GoInt.wrap (a + b).
Proof.
  unfold GoInt.wrap. f_equal.
  replace ((a + 2 ^ 63) mod 2 ^ 64 - 2 ^ 63 + b + 2 ^ 63)
    with ((a + 2 ^ 63) mod 2 ^ 64 + b) by lia.
  rewrite Zplus_mod_idemp_l. f_equal. lia.
Qed.

Lemma wrap_nonzero z : GoInt.wrap z ≠ 0 → z ≠ 0.
Proof. intros H ->. by apply H. Qed.

Lemma wrapU_small z : 0 <= z < 2 ^ 64 → GoInt.wrapU z = z.
Proof. intros H. unfold GoInt.wrapU. by rewrite Z.mod_small. Qed.

Lemma Zsum_app l1 l2 : Zsum (l1 ++ l2) = Zsum l1 + Zsum l2.
Proof. induction l1 as [|x l1 IH]; simpl; lia. Qed.

(** ** The payload generator *)

Section PayloadFacts.
Import Payload.

Lemma park_miller_bound s : 0 <= park_miller s < modulus.
Proof. unfold park_miller, modulus. apply Z.mod_pos_bound. lia. Qed.

Lemma park_miller_nth_bound k : 0 <= park_miller_nth k < modulus.
Proof.
  destruct k as [|k]; [unfold modulus; simpl; lia|].
  unfold park_miller_nth. rewrite Nat.iter_succ. apply park_miller_bound.
Qed.

(** On a seed below the modulus the [uint64] arithmetic never wraps. *)
Lemma next_seed_park_miller s :
  0 <= s < modulus → next_seed s = park_miller s.
Proof.
  unfold next_seed, park_miller, multiplier, modulus. intros H.
  rewrite (wrapU_small (s * 48271)) by nia.
  apply wrapU_small.
  pose proof (Z.mod_pos_bound (s * 48271) 2147483647). lia.
Qed.

Lemma generatePRData_loop_spec turns : ∀ i (done : list Z),
  length done = i →
  generatePRData_loop turns i (park_miller_nth i) (done ++ replicate turns 0)
  = done ++ ((λ k, GoInt.to_byte (park_miller_nth (S k))) <$> seq i turns).
Proof.
  induction turns as [|turns IH]; intros i done Hlen; simpl.
  - reflexivity.
  - rewrite next_seed_park_miller by apply park_miller_nth_bound.
    change (park_miller (park_miller_nth i)) with (park_miller_nth (S i)).
    replace (<[i:=GoInt.to_byte (park_miller_nth (S i))]> (done ++ 0 :: replicate turns 0))
      with ((done ++ [GoInt.to_byte (park_miller_nth (S i))]) ++ replicate turns 0).
    + rewrite IH by (rewrite length_app; simpl; lia).
      by rewrite <- app_assoc.
    + rewrite <- Hlen, insert_app_r_alt, Nat.sub_diag by lia.
      by rewrite <- app_assoc.
Qed.

Lemma generatePRData_bytes (avail : Z) (n : nat) :
  Z.of_nat n <= maxAlloc → Z.of_nat n <= avail →
  generatePRData avail (Z.of_nat n)
  = Some ((λ k, GoInt.to_byte (park_miller_nth (S k))) <$> seq 0 n).
Proof.
  intros Hmax Havail. unfold generatePRData.
  destruct (Z.ltb_spec (Z.of_nat n) 0) as [?|_]; [lia|].
  destruct (Z.ltb_spec maxAlloc (Z.of_nat n)) as [?|_]; [lia|].
  destruct (Z.ltb_spec avail (Z.of_nat n)) as [?|_]; [lia|].
  cbn [orb]. rewrite Nat2Z.id. f_equal.
  apply (generatePRData_loop_spec n 0 []). reflexivity.
Qed.

(** C2.  The payload generator is a function of the size alone: equal
    sizes give the same bytes, whatever the memory at hand when it
    returns at all.  For a size [n >= 0] that [make] can
    allocate (at most [maxAlloc], and within the memory at hand) it
    returns exactly [n] bytes, none for [n = 0], and byte [i] is the
    low-order byte of the [(i+1)]-th value of the sequence seeded at 1
    and updated as [seed * 48271 mod 2147483647]; so for [n >= 1] byte 0
    is [byte(48271) = 143].  For any other size [make] ends the run. *)
Theorem generatePRData_park_miller :
  (∀ avail n m : Z, n = m → generatePRData avail n = generatePRData avail m) ∧
  (∀ avail : Z, 0 <= avail → generatePRData avail 0 = Some []) ∧
  (∀ avail n : Z, 0 <= n → n <= maxAlloc → n <= avail →
     ∃ bs : list Z,
       generatePRData avail n = Some bs ∧
       Z.of_nat (length bs) = n ∧
       (∀ i : nat, (Z.of_nat i < n) →
          bs !! i = Some (park_miller_nth (S i) mod 256)) ∧
       (1 <= n → bs !! 0%nat = Some (48271 mod 256) ∧ 48271 mod 256 = 143)) ∧
  (∀ avail n : Z, n < 0 ∨ maxAlloc < n ∨ avail < n → generatePRData avail n = None) ∧
  (∀ avail1 avail2 n bs1 bs2,
     generatePRData avail1 n = Some bs1 → generatePRData avail2 n = Some bs2 →
     bs1 = bs2).
Proof.
  split; [by intros avail n m ->|]. split; [|split; [|split]].
  - intros avail Havail.
    apply (generatePRData_bytes avail 0); [unfold maxAlloc; simpl; lia | simpl; lia].
  - intros avail n Hn Hmax Havail.
    rewrite <- (Z2Nat.id n Hn) in Hmax, Havail |- *. set (k := Z.to_nat n) in *.
    eexists. split; [by apply generatePRData_bytes|].
    split; [by rewrite length_fmap, length_seq|].
    assert (Hlk : ∀ i : nat, (Z.of_nat i < Z.of_nat k) →
      ((λ j, GoInt.to_byte (park_miller_nth (S j))) <$> seq 0 k) !! i
      = Some (park_miller_nth (S i) mod 256)).
    { intros i Hi. rewrite list_lookup_fmap, lookup_seq_lt by lia. reflexivity. }
    split; [exact Hlk|].
    intros H1. split; [|reflexivity].
    rewrite Hlk by lia. reflexivity.
  - intros avail n Hbad. unfold generatePRData.
    destruct (Z.ltb_spec n 0); [done|].
    destruct (Z.ltb_spec maxAlloc n); [done|].
    destruct (Z.ltb_spec avail n); [done|]. lia.
  - intros avail1 avail2 n bs1 bs2 H1 H2. unfold generatePRData in H1, H2.
    repeat case_match; simplify_eq; done.
Qed.

(** The theorem at a size of three bytes, with a kilobyte at hand. *)
Lemma generatePRData_park_miller_witness :
  ∃ bs : list Z,
    generatePRData 1024 3 = Some bs ∧
    Z.of_nat (length bs) = 3 ∧
    (∀ i : nat, (Z.of_nat i < 3) → bs !! i = Some (park_miller_nth (S i) mod 256)) ∧
    (1 <= 3 → bs !! 0%nat = Some (48271 mod 256) ∧ 48271 mod 256 = 143).
Proof.
  apply (proj1 (proj2 (proj2 generatePRData_park_miller)) 1024 3).
  - lia.
  - unfold maxAlloc. lia.
  - lia.
Defined.

Example generatePRData_4 : generatePRData 1024 4 = Some [143; 226; 70; 125].
Proof. vm_compute. reflexivity. Qed.

Example generatePRData_negative : generatePRData 1024 (-1) = None.
Proof. reflexivity. Qed.

Example generatePRData_too_long : generatePRData (2 ^ 63) (2 ^ 62) = None.
Proof. reflexivity. Qed.

Example generatePRData_out_of_memory : generatePRData 1024 4096 = None.
Proof. reflexivity. Qed.

End PayloadFacts.

(** ** The report *)

Section ReportFacts.
Import Report.

Lemma totalDur_from (times : list Z) : ∀ a,
  foldl (λ acc d, GoInt.wrap (acc + d)) (GoInt.wrap a) times
  = GoInt.wrap (a + Zsum times).
Proof.
  induction times as [|d times IH]; intros a; simpl.
  - f_equal. lia.
  - rewrite wrap_add_l, IH. f_equal. lia.
Qed.

(** The summing loop leaves the sum of the durations, wrapped once. *)
Lemma totalDur_wrap_sum (times : list Z) : totalDur times = GoInt.wrap (Zsum times).
Proof. unfold totalDur. apply (totalDur_from times 0). Qed.

Lemma quot_in_range a b : GoInt.in_range a → 0 < b → GoInt.in_range (a ÷ b).
Proof.
  unfold GoInt.in_range. intros Ha Hb.
  destruct (Z.le_gt_cases 0 a) as [H0|H0].
  - pose proof (Z.quot_pos a b H0 Hb).
    assert (a ÷ b <= a) by (apply Z.quot_le_upper_bound; nia). lia.
  - assert (Hq : a ÷ b = - ((- a) ÷ b)) by (rewrite Z.quot_opp_l; lia).
    assert (0 <= (- a) ÷ b) by (apply Z.quot_pos; lia).
    assert ((- a) ÷ b <= - a) by (apply Z.quot_le_upper_bound; nia). lia.
Qed.

Lemma length_pos {A} (l : list A) : l ≠ [] → 0 < Z.of_nat (length l).
Proof. destruct l; [done|simpl; lia]. Qed.

(** Past the guard the average is the truncated quotient of the wrapped
    sum by the count, and the integer division cannot panic. *)
Lemma avgDur_defined (times : list Z) :
  times ≠ [] →
  int_quo (totalDur times) (Z.of_nat (length times))
  = Some (GoInt.wrap (Zsum times) ÷ Z.of_nat (length times)).
Proof.
  intros Hne. pose proof (length_pos times Hne) as Hlen.
  unfold int_quo. destruct (Z.eqb_spec (Z.of_nat (length times)) 0) as [?|_]; [lia|].
  rewrite totalDur_wrap_sum. f_equal.
  apply wrap_small, quot_in_range; [apply wrap_in_range | done].
Qed.

Lemma report_guard_false (total : Z) (times : list Z) :
  times ≠ [] → total ≠ 0 →
  (Z.of_nat (length times) =? 0) || (total =? 0) = false.
Proof.
  intros Hne H0. pose proof (length_pos times Hne).
  apply orb_false_iff. split; apply Z.eqb_neq; lia.
Qed.

(** What the report does past the guard, with Go's wrapping arithmetic. *)
Lemma report_effects (total : Z) (times : list Z) :
  times ≠ [] → total ≠ 0 →
  let len := Z.of_nat (length times) in
  let avg := GoInt.wrap (Zsum times) ÷ len in
  report total times
  = Some [ IntDiv (GoInt.wrap (Zsum times)) len;
           FloatDiv (GoInt.to_float64 (GoInt.wrap (total * 8))) (Seconds avg);
           FloatDiv (bps total avg) (GoInt.to_float64 ratio);
           PrintReceived total len;
           PrintSpeed (Mbps total avg);
           Println "Test finished successfully." ].
Proof.
  intros Hne H0 len avg. unfold report.
  rewrite report_guard_false, avgDur_defined by done.
  by rewrite totalDur_wrap_sum.
Qed.

Lemma Mbps_spec (total : Z) (times : list Z) :
  GoInt.in_range (total * 8) → GoInt.in_range (Zsum times) →
  Mbps total (GoInt.wrap (Zsum times) ÷ Z.of_nat (length times))
  = spec_Mbps total times.
Proof.
  intros Ht Hs. unfold Mbps, bps, spec_Mbps, spec_average.
  by rewrite !wrap_small.
Qed.

(** C1.  Past the no-data guard (some duration recorded, total not zero)
    the report prints the Mbps figure [bps / 1048576] with
    [bps = float64(total*8) / avgDur.Seconds()] and
    [avgDur = sum of the durations / their count]: first with Go's
    64-bit arithmetic as it is, then, when [total*8] and the sum fit in
    an [int64], with the plain integer formula of the specification.
    For 1,048,576 bytes and an average of one second the figure is
    exactly 8.0. *)
Theorem report_throughput_formula :
  (∀ (total : Z) (times : list Z), times ≠ [] → total ≠ 0 →
     ∃ avg,
       int_quo (totalDur times) (Z.of_nat (length times)) = Some avg ∧
       avg = GoInt.wrap (Zsum times) ÷ Z.of_nat (length times) ∧
       Mbps total avg
       = ((GoInt.to_float64 (GoInt.wrap (total * 8)) / Seconds avg) / 1048576)%float ∧
       report total times
       = Some [ IntDiv (totalDur times) (Z.of_nat (length times));
                FloatDiv (GoInt.to_float64 (GoInt.wrap (total * 8))) (Seconds avg);
                FloatDiv (bps total avg) 1048576%float;
                PrintReceived total (Z.of_nat (length times));
                PrintSpeed (Mbps total avg);
                Println "Test finished successfully." ]) ∧
  (∀ (total : Z) (times : list Z), times ≠ [] → total ≠ 0 →
     GoInt.in_range (total * 8) → GoInt.in_range (Zsum times) →
     filter is_speed (default [] (report total times))
     = [PrintSpeed (spec_Mbps total times)]) ∧
  (∀ times : list Z, times ≠ [] → GoInt.in_range (Zsum times) →
     spec_average times = Second →
     filter is_speed (default [] (report 1048576 times)) = [PrintSpeed 8%float]).
Proof.
  split; [|split].
  - intros total times Hne H0. eexists. split; [by apply avgDur_defined|].
    split; [reflexivity|]. split; [reflexivity|].
    rewrite report_effects by done. by rewrite totalDur_wrap_sum.
  - intros total times Hne H0 Ht Hs.
    rewrite report_effects by done. simpl.
    by rewrite Mbps_spec.
  - intros times Hne Hs Havg.
    rewrite report_effects by done. simpl.
    rewrite Mbps_spec by done.
    unfold spec_Mbps. rewrite Havg. by vm_compute.
Qed.

(** The theorem on one megabyte read by two streams in 0.9 s and 1.1 s. *)
Lemma report_throughput_formula_witness :
  filter is_speed (default [] (report 1048576 [900000000; 1100000000]))
  = [PrintSpeed 8%float].
Proof.
  apply (proj2 (proj2 report_throughput_formula) [900000000; 1100000000]).
  - discriminate.
  - vm_compute. split; [discriminate | reflexivity].
  - reflexivity.
Defined.

Example report_two_streams :
  report 3000000 [1500000000; 2500000001]
  = Some [ IntDiv 4000000001 2;
           FloatDiv 24000000%float 2%float;
           FloatDiv 12000000%float 1048576%float;
           PrintReceived 3000000 2;
           PrintSpeed 0x1.6e36p+3%float;
           Println "Test finished successfully." ].
Proof. vm_compute. reflexivity. Qed.

(** C4.  When no duration was recorded or the total is zero, the report
    stage prints "No data received." and nothing else: it evaluates no
    division (so also none by a zero count) and prints no Mbps figure.
    This is what the main goroutine does once every download goroutine
    has returned. *)
Theorem report_no_data :
  (∀ (total : Z) (times : list Z), times = [] ∨ total = 0 →
     ∃ effs,
       report total times = Some effs ∧
       effs = [Println "No data received."] ∧
       filter is_division effs = [] ∧
       filter is_speed effs = []) ∧
  (∀ c, Download.all_done c = true →
     Download.times (Download.sh c) = [] ∨ Download.total (Download.sh c) = 0 →
     main_after_download c = Some (Some [Println "No data received."])).
Proof.
  assert (H : ∀ (total : Z) (times : list Z), times = [] ∨ total = 0 →
            report total times = Some [Println "No data received."]).
  { intros total times [-> | ->]; unfold report; [reflexivity|].
    by rewrite Z.eqb_refl, orb_true_r. }
  split.
  - intros total times Hg. eexists. split; [by apply H|]. done.
  - intros c Hd Hg. unfold main_after_download. rewrite Hd. f_equal. by apply H.
Qed.

(** The theorem on an empty collection with bytes counted, and on a
    configuration with no goroutine at all. *)
Lemma report_no_data_witness :
  (∃ effs,
     report 4096 [] = Some effs ∧
     effs = [Println "No data received."] ∧
     filter is_division effs = [] ∧
     filter is_speed effs = []) ∧
  main_after_download
    {| Download.sh := {| Download.total := 0; Download.times := [7];
                         Download.locked := false |};
       Download.tasks := [] |}
  = Some (Some [Println "No data received."]).
Proof.
  split.
  - apply (proj1 report_no_data 4096 []). by left.
  - apply (proj2 report_no_data); [reflexivity | by right].
Defined.

(** The report stage never panics: the only integer division is behind
    the guard. *)
Lemma report_never_panics (total : Z) (times : list Z) : is_Some (report total times).
Proof.
  unfold report.
  destruct ((Z.of_nat (length times) =? 0) || (total =? 0)) eqn:Hg; [by eexists|].
  apply orb_false_iff in Hg as [Hl _].
  unfold int_quo. rewrite Hl. by eexists.
Qed.

End ReportFacts.

(** ** The upload task *)

Section UploadFacts.
Import Upload.

Lemma slice_take_drop (msg : list Z) (off chunk : Z) :
  0 <= off → 0 <= chunk → off + chunk <= Z.of_nat (length msg) →
  slice msg off (off + chunk)
  = Some (take (Z.to_nat chunk) (drop (Z.to_nat off) msg)).
Proof.
  intros Ho Hc Hb. unfold slice.
  destruct (Z.leb_spec 0 off); [|lia].
  destruct (Z.leb_spec off (off + chunk)); [|lia].
  destruct (Z.leb_spec (off + chunk) (Z.of_nat (length msg))); [|lia].
  simpl. do 3 f_equal. lia.
Qed.

Lemma chunks_step pieces (l : list Z) :
  l ≠ [] →
  chunks (S pieces) l
  = take (Z.to_nat chunk_size) l :: chunks pieces (drop (Z.to_nat chunk_size) l).
Proof. by destruct l. Qed.

Lemma nonempty_length (l : list Z) : 0 < Z.of_nat (length l) → l ≠ [].
Proof. destruct l; simpl; [lia | done]. Qed.

(** The loop on a stream that takes every chunk: one [Write] and one
    deadline per piece of the rest of the payload. *)
Lemma write_loop_good (w : writer) (msg : list Z) :
  good_writer w → Z.of_nat (length msg) < 2 ^ 63 →
  ∀ fuel k off remaining,
    0 <= off → 0 <= remaining → off + remaining = Z.of_nat (length msg) →
    remaining + chunk_size <= chunk_size * Z.of_nat fuel →
    write_loop fuel w msg k off remaining
    = (flat_map (λ c, [Write c; SetWriteDeadline write_deadline])
         (chunks fuel (drop (Z.to_nat off) msg)), Completed).
Proof.
  intros Hw Hlen.
  induction fuel as [|fuel IH]; intros k off rem Ho Hr Hsum Hfuel;
    [unfold chunk_size in Hfuel; lia|].
  cbn [write_loop].
  destruct (Z.ltb_spec 0 rem) as [Hpos|Hzero].
  - assert (Hchunk : ∃ chunk, (if rem <? chunk_size then rem else chunk_size) = chunk ∧
        0 < chunk <= 65536 ∧ chunk <= rem ∧ (chunk = rem ∨ chunk = 65536) ∧
        take (Z.to_nat chunk) (drop (Z.to_nat off) msg)
        = take (Z.to_nat chunk_size) (drop (Z.to_nat off) msg) ∧
        drop (Z.to_nat (off + chunk)) msg
        = drop (Z.to_nat chunk_size) (drop (Z.to_nat off) msg)).
    { rewrite drop_drop. unfold chunk_size.
      destruct (Z.ltb_spec rem (64 * 1024)).
      - exists rem. repeat split; try lia.
        + rewrite !take_ge; [done | rewrite length_drop; lia | rewrite length_drop; lia].
        + rewrite !drop_ge; [done | lia | lia].
      - exists 65536. repeat split; try lia. f_equal. lia. }
    destruct Hchunk as (chunk & -> & Hc1 & Hc2 & Hc3 & Htake & Hdrop).
    rewrite (wrap_small (off + chunk)) by (unfold GoInt.in_range; lia).
    rewrite slice_take_drop by lia.
    assert (Hp : Z.of_nat (length (take (Z.to_nat chunk) (drop (Z.to_nat off) msg)))
                 = chunk).
    { rewrite length_take, length_drop. lia. }
    rewrite Hw. cbn [werr wn]. rewrite Hp.
    rewrite (wrap_small (off + chunk)), (wrap_small (rem - chunk))
      by (unfold GoInt.in_range; lia).
    rewrite IH by (unfold chunk_size in *; lia). cbn [fst snd].
    rewrite chunks_step by (apply nonempty_length; rewrite length_drop; lia).
    cbn [flat_map app]. by rewrite Htake, Hdrop.
  - assert (rem = 0) by lia. subst rem.
    rewrite drop_ge by lia. reflexivity.
Qed.

Lemma written_app tr1 tr2 : written (tr1 ++ tr2) = written tr1 ++ written tr2.
Proof. apply omap_app. Qed.

Lemma written_chunk_events (cs : list (list Z)) :
  written (flat_map (λ c, [Write c; SetWriteDeadline write_deadline]) cs) = cs.
Proof.
  induction cs as [|c cs IH]; [done|].
  cbn [flat_map]. rewrite written_app, IH. reflexivity.
Qed.

Lemma chunks_concat : ∀ pieces (msg : list Z),
  Z.of_nat (length msg) <= chunk_size * Z.of_nat pieces →
  concat (chunks pieces msg) = msg.
Proof.
  unfold chunk_size.
  induction pieces as [|pieces IH]; intros msg Hlen.
  - destruct msg; [done | simpl in Hlen; lia].
  - destruct msg as [|b msg]; [done|]. cbn [chunks concat].
    rewrite IH; [apply take_drop|].
    rewrite length_drop. unfold chunk_size. lia.
Qed.








Example upload_small :
  upload_task 2 take_all [1; 2; 3]
  = ([SetWriteDeadline 30000000000; Write [1; 2; 3];
      SetWriteDeadline 30000000000; Close], Completed).
Proof. reflexivity. Qed.

Example upload_write_error :
  upload_task 2 (λ _ _, {| wn := 0; werr := Some (Err None "reset") |}) [1; 2; 3]
  = ([SetWriteDeadline 30000000000; Write [1; 2; 3];
      LogWriteError (Err None "reset"); Close], Aborted (Err None "reset")).
Proof. reflexivity. Qed.

End UploadFacts.

(** ** The download tasks *)

Section DownloadFacts.
Import Download.

Implicit Types (t : task) (s : shared) (c : config) (e : env) (fl : flags).

(** *** Sums over the goroutines *)

Lemma Zsum_cons x l : Zsum (x :: l) = x + Zsum l.
Proof. reflexivity. Qed.

Lemma Zsum_fmap_insert {A} (f : A → Z) (l : list A) (i : nat) (x y : A) :
  l !! i = Some x →
  Zsum (f <$> <[i := y]> l) = Zsum (f <$> l) - f x + f y.
Proof.
  revert i. induction l as [|a l IH]; intros [|i] Hi; try done.
  - injection Hi as ->. change (<[0%nat := y]> (x :: l)) with (y :: l).
    rewrite !fmap_cons, !Zsum_cons. lia.
  - change (<[S i := y]> (a :: l)) with (a :: <[i := y]> l).
    rewrite !fmap_cons, !Zsum_cons, (IH i Hi). lia.
Qed.

Lemma Zsum_fmap_nonneg {A} (f : A → Z) (l : list A) :
  (∀ a, 0 <= f a) → 0 <= Zsum (f <$> l).
Proof.
  intros Hf. induction l as [|a l IH]; [done|].
  rewrite fmap_cons, Zsum_cons. specialize (Hf a). lia.
Qed.

Lemma Zsum_fmap_lookup_le {A} (f : A → Z) (l : list A) (i : nat) (x : A) :
  (∀ a, 0 <= f a) → l !! i = Some x → f x <= Zsum (f <$> l).
Proof.
  intros Hf. revert i. induction l as [|a l IH]; intros [|i] Hi; try done.
  - injection Hi as ->. rewrite fmap_cons, Zsum_cons.
    pose proof (Zsum_fmap_nonneg f l Hf). lia.
  - rewrite fmap_cons, Zsum_cons. specialize (IH i Hi). specialize (Hf a). lia.
Qed.

Lemma Zsum_fmap_nonzero {A} (f : A → Z) (l : list A) :
  Zsum (f <$> l) ≠ 0 → ∃ i x, l !! i = Some x ∧ f x ≠ 0.
Proof.
  induction l as [|a l IH]; [done|]. rewrite fmap_cons, Zsum_cons. intros H.
  destruct (Z.eq_dec (f a) 0) as [Ha|Ha].
  - destruct IH as (i & x & Hi & Hx); [lia|]. by exists (S i), x.
  - by exists 0%nat, a.
Qed.

Lemma Zsum_fmap_const {A} (f : A → Z) (l : list A) (a : Z) :
  (∀ i x, l !! i = Some x → f x = a) →
  Zsum (f <$> l) = Z.of_nat (length l) * a.
Proof.
  induction l as [|x l IH]; intros H; [simpl; lia|].
  rewrite fmap_cons, Zsum_cons, length_cons.
  rewrite (H 0%nat x eq_refl), IH by (intros i y Hi; apply (H (S i) y Hi)). lia.
Qed.

Lemma concat_fmap_insert_snoc {A B} (f : A → list B) (l : list A) (i : nat)
    (x y : A) (b : B) :
  l !! i = Some x → f y = f x ++ [b] →
  concat (f <$> <[i := y]> l) ≡ₚ concat (f <$> l) ++ [b].
Proof.
  intros Hi Hy. revert i Hi. induction l as [|a l IH]; intros [|i] Hi; try done.
  - injection Hi as ->. simpl. rewrite Hy.
    rewrite <- !app_assoc. f_equiv. apply Permutation_app_comm.
  - simpl in *. rewrite (IH i Hi). by rewrite app_assoc.
Qed.

Lemma fmap_insert_same {A B} (f : A → B) (l : list A) (i : nat) (x y : A) :
  l !! i = Some x → f y = f x → f <$> <[i := y]> l = f <$> l.
Proof.
  intros Hi Hy. rewrite list_fmap_insert, Hy.
  apply list_insert_id. by rewrite list_lookup_fmap, Hi.
Qed.

(** *** What a step does to a goroutine's own counters *)

Lemma added_goto t p evs : added (goto t p evs) = added t + Zsum (ev_bytes <$> evs).
Proof. unfold added, goto. simpl. by rewrite fmap_app, Zsum_app. Qed.

Lemma recorded_goto t p evs : recorded (goto t p evs) = recorded t ++ omap ev_dur evs.
Proof. unfold recorded, goto. simpl. apply omap_app. Qed.

Lemma cs_nonneg t : 0 <= cs t.
Proof. unfold cs. destruct (in_cs t); lia. Qed.

Lemma inv_init fl : inv (init fl).
Proof.
  unfold init. generalize (Z.to_nat (numberStream fl)) as n. intros n.
  assert (Ha : Zsum (added <$> replicate n init_task) = 0).
  { induction n as [|n IH]; [done|].
    cbn [replicate]. by rewrite fmap_cons, Zsum_cons, IH. }
  assert (Hr : concat (recorded <$> replicate n init_task) = []).
  { induction n as [|n IH]; [done|].
    cbn [replicate]. by rewrite fmap_cons, concat_cons, IH. }
  assert (Hc : Zsum (cs <$> replicate n init_task) = 0).
  { induction n as [|n IH]; [done|].
    cbn [replicate]. by rewrite fmap_cons, Zsum_cons, IH. }
  split; cbn [sh tasks total times locked].
  - by rewrite Ha.
  - by rewrite Hr.
  - done.
  - intros i t [-> _]%lookup_replicate. exact I.
Qed.

(** Mutual exclusion: two goroutines inside a critical section are the
    same goroutine. *)
Lemma inv_exclusive c i j ti tj :
  inv c → tasks c !! i = Some ti → tasks c !! j = Some tj →
  in_cs ti = true → in_cs tj = true → i = j.
Proof.
  intros Hinv Hi Hj Hci Hcj. destruct (decide (i = j)) as [|Hne]; [done|].
  exfalso.
  pose proof (Zsum_fmap_insert cs (tasks c) i ti init_task Hi) as Hins.
  assert (Hj' : <[i := init_task]> (tasks c) !! j = Some tj)
    by (by rewrite list_lookup_insert_ne).
  pose proof (Zsum_fmap_lookup_le cs _ j tj cs_nonneg Hj') as Hle.
  pose proof (inv_mutex c Hinv) as Hm.
  assert (Hti : cs ti = 1) by (unfold cs; by rewrite Hci).
  assert (Htj : cs tj = 1) by (unfold cs; by rewrite Hcj).
  assert (Ht0 : cs init_task = 0) by reflexivity.
  destruct (locked (sh c)); lia.
Qed.

Lemma inv_in_cs_locked c i t :
  inv c → tasks c !! i = Some t → in_cs t = true → locked (sh c) = true.
Proof.
  intros Hinv Hi Hc.
  pose proof (Zsum_fmap_lookup_le cs _ i t cs_nonneg Hi) as Hle.
  pose proof (inv_mutex c Hinv) as Hm.
  assert (Ht : cs t = 1) by (unfold cs; by rewrite Hc).
  destruct (locked (sh c)); [done | lia].
Qed.

(** *** One step of one goroutine, by what it does to the shared state *)

Lemma tmp_ok_outside s t : in_cs t = false → tmp_ok s t.
Proof. unfold in_cs, tmp_ok. by destruct (at_pc t). Qed.

Lemma tmp_ok_set_locked s t b : tmp_ok s t → tmp_ok (set_locked s b) t.
Proof. unfold tmp_ok. by destruct (at_pc t). Qed.

Ltac counters Hpc :=
  repeat split; try done;
  unfold in_cs, tmp_ok, added, recorded, goto; cbn [at_pc trace nreads];
  rewrite ?Hpc, ?fmap_app, ?Zsum_app, ?omap_app; cbn;
  rewrite ?app_nil_r; try done; try lia.

Lemma task_step_cases fl e t s t' s' :
  task_step fl e t s = Some (t', s') →
  (s' = s ∧ in_cs t' = in_cs t ∧ added t' = added t ∧ recorded t' = recorded t
   ∧ tmp_ok s t')
  ∨ (locked s = false ∧ s' = set_locked s true ∧ in_cs t = false ∧ in_cs t' = true
     ∧ added t' = added t ∧ recorded t' = recorded t ∧ tmp_ok s' t')
  ∨ (s' = set_locked s false ∧ in_cs t = true ∧ in_cs t' = false
     ∧ added t' = added t ∧ recorded t' = recorded t)
  ∨ (∃ d n re tmp, at_pc t = Store d n re tmp
     ∧ s' = set_total s (GoInt.wrap (tmp + n)) ∧ in_cs t = true ∧ in_cs t' = true
     ∧ added t' = added t + n ∧ recorded t' = recorded t)
  ∨ (∃ d tmp, at_pc t = TimesStore d tmp
     ∧ s' = set_times s (tmp ++ [elapsed e]) ∧ in_cs t = true ∧ in_cs t' = true
     ∧ added t' = added t ∧ recorded t' = recorded t ++ [elapsed e]).
Proof.
  unfold task_step. intros H.
  destruct (at_pc t) as [ | err | err uerr | d | d | d n re | d n re | d n re tmp
                        | d re | d re | d | d | d tmp | d | | ] eqn:Hpc.
  - left. destruct (accept_bidi e); simplify_eq; counters Hpc.
  - left. destruct (accept_uni e); simplify_eq; counters Hpc.
  - left. simplify_eq. counters Hpc.
  - left. destruct d; simplify_eq; [counters Hpc|].
    destruct (uni_has_deadline e); counters Hpc.
  - left. simplify_eq. counters Hpc.
    + by destruct (0 <? rn (reads e (nreads t))).
    + by destruct (0 <? rn (reads e (nreads t))).
  - right; left. destruct (locked s) eqn:Hl; simplify_eq. counters Hpc.
  - left. simplify_eq. counters Hpc.
  - do 3 right; left. simplify_eq. exists d, n, re, tmp. counters Hpc.
  - do 2 right; left. simplify_eq. counters Hpc.
  - left. simplify_eq. counters Hpc.
    + unfold after_read. destruct re as [[|]|]; try done. by destruct (is_timeout _).
    + unfold after_read. destruct re as [[|]|]; try done. by destruct (is_timeout _).
  - right; left. destruct (locked s) eqn:Hl; simplify_eq. counters Hpc.
  - left. simplify_eq. counters Hpc.
  - do 4 right. simplify_eq. exists d, tmp. counters Hpc.
  - do 2 right; left. simplify_eq. counters Hpc; by destruct d.
  - left. simplify_eq. counters Hpc.
  - done.
Qed.

Lemma step_inv fl envs i c c' : inv c → step fl envs i c = Some c' → inv c'.
Proof.
  intros Hinv. unfold step.
  destruct (tasks c !! i) as [t|] eqn:Hi; [|done].
  destruct (task_step fl (envs i) t (sh c)) as [[t' s']|] eqn:Hs; [|done].
  intros [= <-].
  pose proof (inv_tmp c Hinv i t Hi) as Htmp.
  assert (Hother : ∀ j tj, j ≠ i → <[i := t']> (tasks c) !! j = Some tj →
            in_cs t = true → in_cs tj = false).
  { intros j tj Hne Hj Hc. rewrite list_lookup_insert_ne in Hj by done.
    destruct (in_cs tj) eqn:Hcj; [|done].
    by destruct Hne; apply (inv_exclusive c j i tj t). }
  pose proof (lookup_lt_Some _ _ _ Hi) as Hlen.
  assert (Hlk : ∀ j tj (P : task → Prop),
            <[i := t']> (tasks c) !! j = Some tj → P t' →
            (j ≠ i → tasks c !! j = Some tj → P tj) → P tj).
  { intros j tj P Hj Ht' Hrest. destruct (decide (j = i)) as [->|Hne].
    - rewrite list_lookup_insert_eq in Hj by done. by injection Hj as <-.
    - apply Hrest; [done|]. by rewrite list_lookup_insert_ne in Hj. }
  destruct (task_step_cases _ _ _ _ _ _ Hs)
    as [(-> & Hc & Ha & Hr & Ht)
       |[(Hl & -> & Hc & Hc' & Ha & Hr & Ht)
       |[(-> & Hc & Hc' & Ha & Hr)
       |[(d & n & re & tmp & Hpc & -> & Hc & Hc' & Ha & Hr)
       |(d & tmp & Hpc & -> & Hc & Hc' & Ha & Hr)]]]];
    split; cbn [sh tasks total times locked set_locked set_total set_times].
  (* a step on the goroutine's own state *)
  - rewrite (fmap_insert_same added _ i t t') by done. apply Hinv.
  - rewrite (fmap_insert_same recorded _ i t t') by done. apply Hinv.
  - rewrite (fmap_insert_same cs _ i t t'); [apply Hinv | done |].
    unfold cs. by rewrite Hc.
  - intros j tj Hj. apply (Hlk j tj (tmp_ok (sh c)) Hj Ht).
    intros _ Hj'. by apply (inv_tmp c Hinv j).
  (* mu.Lock() *)
  - rewrite (fmap_insert_same added _ i t t') by done. apply Hinv.
  - rewrite (fmap_insert_same recorded _ i t t') by done. apply Hinv.
  - rewrite (Zsum_fmap_insert cs _ i t t' Hi), (inv_mutex c Hinv), Hl.
    unfold cs. rewrite Hc, Hc'. lia.
  - intros j tj Hj. apply (Hlk j tj _ Hj Ht).
    intros _ Hj'. by apply tmp_ok_set_locked, (inv_tmp c Hinv j).
  (* mu.Unlock() *)
  - rewrite (fmap_insert_same added _ i t t') by done. apply Hinv.
  - rewrite (fmap_insert_same recorded _ i t t') by done. apply Hinv.
  - rewrite (Zsum_fmap_insert cs _ i t t' Hi), (inv_mutex c Hinv).
    rewrite (inv_in_cs_locked c i t Hinv Hi Hc).
    unfold cs. rewrite Hc, Hc'. lia.
  - intros j tj Hj. apply (Hlk j tj _ Hj).
    + by apply tmp_ok_outside.
    + intros _ Hj'. by apply tmp_ok_set_locked, (inv_tmp c Hinv j).
  (* total += n *)
  - unfold tmp_ok in Htmp. rewrite Hpc in Htmp. subst tmp.
    rewrite (Zsum_fmap_insert added _ i t t' Hi), Ha, (inv_total c Hinv).
    rewrite wrap_add_l. f_equal. lia.
  - rewrite (fmap_insert_same recorded _ i t t') by done. apply Hinv.
  - rewrite (fmap_insert_same cs _ i t t'); [apply Hinv | done |].
    unfold cs. by rewrite Hc, Hc'.
  - intros j tj Hj. destruct (decide (j = i)) as [->|Hne].
    + rewrite list_lookup_insert_eq in Hj by done. injection Hj as <-.
      unfold task_step in Hs. rewrite Hpc in Hs. simplify_eq. exact I.
    + apply tmp_ok_outside. by apply (Hother j).
  (* times = append(times, ...) *)
  - rewrite (fmap_insert_same added _ i t t') by done. apply Hinv.
  - unfold tmp_ok in Htmp. rewrite Hpc in Htmp. subst tmp.
    rewrite (concat_fmap_insert_snoc recorded _ i t t' (elapsed (envs i)) Hi Hr).
    by rewrite (inv_times c Hinv).
  - rewrite (fmap_insert_same cs _ i t t'); [apply Hinv | done |].
    unfold cs. by rewrite Hc, Hc'.
  - intros j tj Hj. destruct (decide (j = i)) as [->|Hne].
    + rewrite list_lookup_insert_eq in Hj by done. injection Hj as <-.
      unfold task_step in Hs. rewrite Hpc in Hs. simplify_eq. exact I.
    + apply tmp_ok_outside. by apply (Hother j).
Qed.

(** The invariant holds along every interleaving. *)
Lemma run_inv fl envs sched : ∀ c, inv c → inv (run fl envs sched c).
Proof.
  induction sched as [|i sched IH]; intros c Hinv; [done|]. cbn [run].
  apply IH. destruct (step fl envs i c) as [c'|] eqn:Hs; [|done].
  by apply (step_inv fl envs i c).
Qed.

(** *** Properties of each goroutine that hold along every interleaving *)

Lemma step_tasks_sat (P : nat → task → Prop) fl envs :
  (∀ i t s t' s', P i t → task_step fl (envs i) t s = Some (t', s') → P i t') →
  ∀ k c, (∀ i t, tasks c !! i = Some t → P i t) →
    ∀ i t, tasks (default c (step fl envs k c)) !! i = Some t → P i t.
Proof.
  intros Hstep k c Hc i t. unfold step.
  destruct (tasks c !! k) as [tk|] eqn:Hk; [|by apply Hc].
  destruct (task_step fl (envs k) tk (sh c)) as [[t' s']|] eqn:Hs; [|by apply Hc].
  simpl. destruct (decide (i = k)) as [->|Hne].
  - rewrite list_lookup_insert_eq by by eapply lookup_lt_Some.
    intros [= <-]. eapply Hstep; [|done]. by apply Hc.
  - rewrite list_lookup_insert_ne by done. apply Hc.
Qed.

Lemma run_tasks_sat (P : nat → task → Prop) fl envs :
  (∀ i t s t' s', P i t → task_step fl (envs i) t s = Some (t', s') → P i t') →
  ∀ sched c, (∀ i t, tasks c !! i = Some t → P i t) →
    ∀ i t, tasks (run fl envs sched c) !! i = Some t → P i t.
Proof.
  intros Hstep. induction sched as [|k sched IH]; intros c Hc; [done|].
  cbn [run]. apply IH. by apply step_tasks_sat.
Qed.

Lemma init_tasks fl i t : tasks (init fl) !! i = Some t → t = init_task.
Proof. unfold init. cbn [tasks]. by intros [-> _]%lookup_replicate. Qed.

Lemma run_length fl envs sched : ∀ c,
  length (tasks (run fl envs sched c)) = length (tasks c).
Proof.
  induction sched as [|k sched IH]; intros c; [done|]. cbn [run]. rewrite IH.
  unfold step. destruct (tasks c !! k); [|done].
  destruct (task_step _ _ _ _) as [[t' s']|]; [|done].
  simpl. apply length_insert.
Qed.

Ltac local_goal :=
  unfold reads_returned, added, recorded, goto in *; cbn [at_pc nreads trace] in *;
  rewrite ?fmap_app, ?Zsum_app, ?omap_app, ?length_app; cbn;
  rewrite ?app_nil_r; intuition (try done; try lia).

Lemma task_step_local fl e t s t' s' :
  local_inv e t → task_step fl e t s = Some (t', s') → local_inv e t'.
Proof.
  unfold local_inv, task_step. intros [Hn H] Hs.
  destruct (at_pc t) as [ | err | err uerr | d | d | d n re | d n re | d n re tmp
                        | d re | d re | d | d | d tmp | d | | ] eqn:Hpc.
  - destruct (accept_bidi e); simplify_eq; local_goal.
  - destruct (accept_uni e); simplify_eq; local_goal.
  - simplify_eq. local_goal.
  - destruct d; simplify_eq; [local_goal|].
    destruct (uni_has_deadline e); local_goal.
  - simplify_eq. destruct (0 <? rn (reads e (nreads t))); local_goal.
  - destruct (locked s); simplify_eq. local_goal.
  - simplify_eq. local_goal.
  - simplify_eq. local_goal.
  - simplify_eq. local_goal.
  - simplify_eq. unfold after_read.
    destruct re as [[|to txt]|]; [| destruct (is_timeout _) |]; local_goal.
  - destruct (locked s); simplify_eq. local_goal.
  - simplify_eq. local_goal.
  - simplify_eq. local_goal. by rewrite H0.
  - simplify_eq. destruct d; local_goal.
  - simplify_eq. local_goal.
  - done.
Qed.

Lemma local_inv_init e : local_inv e init_task.
Proof. by repeat split. Qed.

Lemma run_local_inv fl envs sched i t :
  tasks (run fl envs sched (init fl)) !! i = Some t → local_inv (envs i) t.
Proof.
  apply (run_tasks_sat (λ i t, local_inv (envs i) t) fl envs).
  - intros j tj s t' s'. apply task_step_local.
  - intros j tj ->%init_tasks. apply local_inv_init.
Qed.

Lemma no_accept_app tr1 tr2 :
  no_accept (tr1 ++ tr2) = no_accept tr1 && no_accept tr2.
Proof. apply forallb_app. Qed.

Lemma accept_order_snoc tr evs :
  accept_order tr = true → tr ≠ [] → no_accept evs = true →
  accept_order (tr ++ evs) = true.
Proof.
  intros Ho Hne Hevs.
  destruct tr as [|ev rest]; [done|].
  destruct ev; try (cbn in Ho; discriminate).
  cbn [accept_order app] in *.
  apply andb_prop in Ho as [-> Ho]. rewrite andb_true_l.
  destruct rest as [|ev rest].
  - cbn [app]. destruct evs as [|ev evs]; [done|]. by destruct ev.
  - cbn [app].
    destruct ev; try (by rewrite app_comm_cons, no_accept_app, Ho, Hevs).
    apply andb_prop in Ho as [-> Ho]. by rewrite no_accept_app, Ho, Hevs.
Qed.

Lemma task_step_order fl e t s t' s' :
  order_inv t → task_step fl e t s = Some (t', s') → order_inv t'.
Proof.
  unfold order_inv, task_step. intros [Ho H] Hs.
  assert (Hsnoc : ∀ p evs, trace t ≠ [] → no_accept evs = true →
            match p with AcceptBidi | AcceptUni _ => False | _ => True end →
            accept_order (trace (goto t p evs)) = true ∧
            match at_pc (goto t p evs) with
            | AcceptBidi => trace (goto t p evs) = []
            | AcceptUni _ => trace (goto t p evs) = [EvAcceptStream accept_timeout]
            | _ => trace (goto t p evs) ≠ []
            end).
  { intros p evs Hne Hevs Hp. cbn [goto trace at_pc]. split.
    - by apply accept_order_snoc.
    - destruct p; try done; by destruct (trace t). }
  destruct (at_pc t) as [ | err | err uerr | d | d | d n re | d n re | d n re tmp
                        | d re | d re | d | d | d tmp | d | | ] eqn:Hpc.
  - destruct (accept_bidi e); simplify_eq; cbn [goto trace at_pc]; by rewrite H.
  - destruct (accept_uni e); simplify_eq; cbn [goto trace at_pc]; by rewrite H.
  - simplify_eq. by apply Hsnoc.
  - destruct d; simplify_eq; [by apply Hsnoc|].
    apply Hsnoc; [done | by destruct (uni_has_deadline e) | done].
  - simplify_eq. cbn [trace at_pc]. split.
    + by apply accept_order_snoc.
    + destruct (0 <? rn (reads e (nreads t))); by destruct (trace t).
  - destruct (locked s); simplify_eq. by apply Hsnoc.
  - simplify_eq. by apply Hsnoc.
  - simplify_eq. by apply Hsnoc.
  - simplify_eq. by apply Hsnoc.
  - simplify_eq. apply Hsnoc; try done. unfold after_read.
    destruct re as [[|to txt]|]; [| destruct (is_timeout _) |]; done.
  - destruct (locked s); simplify_eq. by apply Hsnoc.
  - simplify_eq. by apply Hsnoc.
  - simplify_eq. by apply Hsnoc.
  - simplify_eq. apply Hsnoc; try done. by destruct d.
  - simplify_eq. by apply Hsnoc.
  - done.
Qed.

Lemma run_order_inv fl envs sched i t :
  tasks (run fl envs sched (init fl)) !! i = Some t → order_inv t.
Proof.
  apply (run_tasks_sat (λ _ t, order_inv t) fl envs).
  - intros j tj s t' s'. apply task_step_order.
  - by intros j tj ->%init_tasks.
Qed.

(** *** A slot without a stream *)

Lemma task_step_fail_path fl e t s t' s' :
  fails e → on_fail_path t → task_step fl e t s = Some (t', s') →
  s' = s ∧ on_fail_path t' ∧ added t' = added t ∧ recorded t' = recorded t
  ∧ reads_returned t' = reads_returned t.
Proof.
  intros [[err Hb] [uerr Hu]]. unfold on_fail_path, task_step.
  destruct (at_pc t) eqn:Hpc; try done; rewrite ?Hb, ?Hu; intros _ [= <- <-];
    rewrite added_goto, recorded_goto; unfold reads_returned, goto;
    cbn [trace at_pc]; rewrite omap_app; cbn; rewrite !app_nil_r;
    repeat split; lia.
Qed.

Lemma agree_step_other fl envs i k c1 c2 :
  k ≠ i → agree i c1 c2 →
  agree i (default c1 (step fl envs k c1)) (default c2 (step fl envs k c2)).
Proof.
  intros Hne [Hsh Hts]. unfold step.
  rewrite <- (Hts k Hne), <- Hsh.
  destruct (tasks c1 !! k) as [t|] eqn:Hk; [|done].
  destruct (task_step fl (envs k) t (sh c1)) as [[t' s']|]; [|done].
  assert (k < length (tasks c1))%nat by (by eapply lookup_lt_Some).
  assert (k < length (tasks c2))%nat
    by (apply lookup_lt_is_Some; rewrite <- (Hts k Hne); by eexists).
  split; [done|]. intros j Hj. simpl.
  destruct (decide (j = k)) as [->|Hjk].
  - by rewrite !list_lookup_insert_eq.
  - rewrite !list_lookup_insert_ne by done. by apply Hts.
Qed.

Lemma agree_step_failing fl envs i c1 c2 :
  fails (envs i) → agree i c1 c2 →
  (∀ t, tasks c1 !! i = Some t → on_fail_path t) →
  agree i (default c1 (step fl envs i c1)) c2 ∧
  (∀ t, tasks (default c1 (step fl envs i c1)) !! i = Some t → on_fail_path t).
Proof.
  intros Hf [Hsh Hts] Hp. unfold step.
  destruct (tasks c1 !! i) as [t|] eqn:Hi; [|by rewrite <- Hi in Hp].
  destruct (task_step fl (envs i) t (sh c1)) as [[t' s']|] eqn:Hs;
    [|by rewrite <- Hi in Hp].
  destruct (task_step_fail_path _ _ _ _ _ _ Hf (Hp t eq_refl) Hs) as (-> & Hp' & _).
  simpl. split; [split; [done|]|].
  - intros j Hj. simpl. rewrite list_lookup_insert_ne by done. by apply Hts.
  - intros t0. simpl. rewrite list_lookup_insert_eq by by eapply lookup_lt_Some.
    by intros [= <-].
Qed.

(** Removing the steps of a slot without a stream from a schedule
    changes nothing for the shared state and for the other slots. *)
Lemma run_without_failing_slot fl envs i : fails (envs i) →
  ∀ sched c1 c2, agree i c1 c2 →
    (∀ t, tasks c1 !! i = Some t → on_fail_path t) →
    agree i (run fl envs sched c1) (run fl envs (filter (λ k, k ≠ i) sched) c2).
Proof.
  intros Hf. induction sched as [|k sched IH]; intros c1 c2 Hag Hp; [done|].
  rewrite filter_cons. cbn [run]. destruct (decide (k ≠ i)) as [Hne|Heq].
  - cbn [run]. apply IH; [by apply agree_step_other|].
    intros t. unfold step. destruct (tasks c1 !! k) eqn:Hk; [|apply Hp].
    destruct (task_step _ _ _ _) as [[t' s']|]; [|apply Hp].
    simpl. rewrite list_lookup_insert_ne by done. apply Hp.
  - assert (k = i) as -> by (by destruct (decide (k = i))).
    destruct (agree_step_failing fl envs i c1 c2 Hf Hag Hp) as [Hag' Hp'].
    by apply IH.
Qed.

(** C3.  Every download goroutine starts with the duplex accept under
    the 30-second timeout; on an error it goes on to the one-way accept
    under the same timeout, on success to the duplex read loop.  When
    both accepts fail the goroutine logs both errors and returns: in
    three steps, whatever the state of the mutex, with no read, no byte
    added and no duration appended.  And on any schedule the shared
    state and every other slot are what they are on the schedule with
    that slot's steps removed. *)
Theorem accept_fallback_and_isolation :
  accept_timeout = 30 * 1000000000 ∧
  (∀ fl e s t, at_pc t = AcceptBidi →
     task_step fl e t s
     = Some (goto t
               (match accept_bidi e with
                | Some err => AcceptUni err
                | None => Arm Bidi
                end) [EvAcceptStream accept_timeout], s)) ∧
  (∀ fl e s t err, at_pc t = AcceptUni err →
     task_step fl e t s
     = Some (goto t
               (match accept_uni e with
                | Some uerr => LogFail err uerr
                | None => Arm Uni
                end) [EvAcceptUniStream accept_timeout], s)) ∧
  (∀ fl e s err uerr,
     accept_bidi e = Some err → accept_uni e = Some uerr →
     run_task fl e 3 (init_task, s)
     = ({| at_pc := Done; nreads := 0;
           trace := [EvAcceptStream accept_timeout;
                     EvAcceptUniStream accept_timeout;
                     EvLogAcceptError err uerr] |}, s)) ∧
  (∀ fl envs sched (i : nat), fails (envs i) →
     (∀ t, tasks (run fl envs sched (init fl)) !! i = Some t →
        reads_returned t = [] ∧ added t = 0 ∧ recorded t = [] ∧ in_cs t = false) ∧
     agree i (run fl envs sched (init fl))
             (run fl envs (filter (λ k, k ≠ i) sched) (init fl))).
Proof.
  split; [reflexivity|]. split; [|split; [|split]].
  - intros fl e s t Hpc. unfold task_step. rewrite Hpc. by destruct (accept_bidi e).
  - intros fl e s t err Hpc. unfold task_step. rewrite Hpc. by destruct (accept_uni e).
  - intros fl e s err uerr Hb Hu. cbn [run_task]. unfold task_step.
    cbn. rewrite Hb. cbn. rewrite Hu. reflexivity.
  - intros fl envs sched i Hf. split.
    + intros t Hi.
      assert (Hp : on_fail_path t ∧ reads_returned t = [] ∧ added t = 0
                   ∧ recorded t = []).
      { refine (run_tasks_sat
                  (λ j t, j = i → on_fail_path t ∧ reads_returned t = []
                                  ∧ added t = 0 ∧ recorded t = [])
                  fl envs _ sched (init fl) _ i t Hi eq_refl).
        - intros j tj s t' s' Hj Hs ->. destruct (Hj eq_refl) as (Hp & Hr & Ha & Hd).
          destruct (task_step_fail_path _ _ _ _ _ _ Hf Hp Hs)
            as (_ & ? & -> & -> & ->).
          done.
        - by intros j tj ->%init_tasks. }
      destruct Hp as (Hp & Hr & Ha & Hd). repeat split; try done.
      unfold on_fail_path in Hp. unfold in_cs. by destruct (at_pc t).
    + apply run_without_failing_slot; [done | done |].
      by intros t ->%init_tasks.
Qed.

(** The theorem on two slots, the first of which gets no stream. *)
Lemma accept_fallback_and_isolation_witness :
  run_task Scenario.fl2 Scenario.no_stream_env 3
    (init_task, {| total := 0; times := []; locked := true |})
  = ({| at_pc := Done; nreads := 0;
        trace := [EvAcceptStream accept_timeout;
                  EvAcceptUniStream accept_timeout;
                  EvLogAcceptError Scenario.deadline_exceeded
                                   Scenario.deadline_exceeded] |},
     {| total := 0; times := []; locked := true |})
  ∧ agree 0
      (run Scenario.fl2 Scenario.envs_one_missing (Scenario.round_robin 2 20)
         (init Scenario.fl2))
      (run Scenario.fl2 Scenario.envs_one_missing
         (filter (λ k, k ≠ 0%nat) (Scenario.round_robin 2 20)) (init Scenario.fl2)).
Proof.
  destruct accept_fallback_and_isolation as (_ & _ & _ & H3 & H4). split.
  - apply H3; reflexivity.
  - apply H4. split; by eexists.
Defined.

Example one_missing_run :
  let c := run Scenario.fl2 Scenario.envs_one_missing (Scenario.round_robin 2 20)
             (init Scenario.fl2) in
  sh c = {| total := 5; times := [1000]; locked := false |} ∧ all_done c = true.
Proof. vm_compute. done. Qed.

(** A slot that gets a one-way stream after the duplex accept failed:
    the one-way loop reads it, and nothing closes the stream. *)
Example uni_fallback_run :
  let c := run Scenario.fl1 (λ _, Scenario.uni_env 5 1000) (Scenario.round_robin 1 16)
             (init Scenario.fl1) in
  (trace <$> tasks c)
  = [[EvAcceptStream 30000000000; EvAcceptUniStream 30000000000;
      EvSetReadDeadline 30000000000; EvRead 5 None; EvAdd 5;
      EvSetReadDeadline 30000000000; EvRead 0 (Some io_EOF);
      EvAppend 1000]]
  ∧ sh c = {| total := 5; times := [1000]; locked := false |}
  ∧ all_done c = true.
Proof. vm_compute. done. Qed.

(** *** The unidirectional-mode flag *)

Lemma task_step_flags fl1 fl2 e t s :
  readTO fl1 = readTO fl2 → task_step fl1 e t s = task_step fl2 e t s.
Proof. intros H. unfold task_step. by rewrite H. Qed.

Lemma run_flags fl1 fl2 envs sched :
  readTO fl1 = readTO fl2 → ∀ c, run fl1 envs sched c = run fl2 envs sched c.
Proof.
  intros H. induction sched as [|k sched IH]; intros c; [done|]. cbn [run].
  rewrite IH. do 2 f_equal. unfold step.
  destruct (tasks c !! k); [|done]. by rewrite (task_step_flags fl1 fl2).
Qed.

(** C7.  Two runs whose flags differ at most in the unidirectional-mode
    toggle go through the same configurations on every schedule and for
    every peer, so they report the same; in particular setting the
    toggle either way changes nothing.  And in every run every goroutine
    attempts the duplex accept first: a one-way accept can only be the
    event right after it. *)
Theorem uni_toggle_not_consulted :
  (∀ fl1 fl2 envs sched, same_but_uni fl1 fl2 →
     run fl1 envs sched (init fl1) = run fl2 envs sched (init fl2) ∧
     Report.main_after_download (run fl1 envs sched (init fl1))
     = Report.main_after_download (run fl2 envs sched (init fl2))) ∧
  (∀ fl b envs sched,
     run (set_downloadUni fl b) envs sched (init (set_downloadUni fl b))
     = run fl envs sched (init fl)) ∧
  (∀ fl e t s b,
     task_step (set_downloadUni fl b) e t s = task_step fl e t s) ∧
  (∀ fl envs sched (i : nat) t,
     tasks (run fl envs sched (init fl)) !! i = Some t →
     accept_order (trace t) = true).
Proof.
  assert (H : ∀ fl1 fl2 envs sched, same_but_uni fl1 fl2 →
            run fl1 envs sched (init fl1) = run fl2 envs sched (init fl2)).
  { intros fl1 fl2 envs sched (Hn & _ & Hr & _).
    rewrite (run_flags fl1 fl2) by done. unfold init. by rewrite Hn. }
  split; [|split; [|split]].
  - intros fl1 fl2 envs sched Hs. split; [by apply H | by rewrite (H fl1 fl2)].
  - intros fl b envs sched. by apply H.
  - intros fl e t s b. by apply task_step_flags.
  - intros fl envs sched i t Hi. by destruct (run_order_inv _ _ _ _ _ Hi).
Qed.

(** The theorem on the flags of the two-stream scenario and the same
    flags with [-uni] set. *)
Lemma uni_toggle_not_consulted_witness :
  run Scenario.fl2 Scenario.envs_one_missing (Scenario.round_robin 2 20)
    (init Scenario.fl2)
  = run (set_downloadUni Scenario.fl2 true) Scenario.envs_one_missing
      (Scenario.round_robin 2 20) (init (set_downloadUni Scenario.fl2 true)).
Proof.
  apply (proj1 uni_toggle_not_consulted). by repeat split.
Defined.

(** *** The shared counters *)

(** C9.  On every schedule and at every point of it, [total] is the sum
    of the amounts the goroutines have added so far (in Go's 64-bit
    arithmetic; exactly that sum as long as it fits an [int]).  So when
    every one of the N goroutines has added the same amount, [total] is
    N times the amount.  No update is lost because the additions are
    made under the mutex: two goroutines are never both between
    [Lock] and [Unlock], and the value a goroutine is about to write back
    is the current [total]. *)
Theorem total_no_lost_update :
  ∀ fl envs sched,
    let c := run fl envs sched (init fl) in
    total (sh c) = GoInt.wrap (Zsum (added <$> tasks c)) ∧
    (GoInt.in_range (Zsum (added <$> tasks c)) →
     total (sh c) = Zsum (added <$> tasks c)) ∧
    (∀ amount, (∀ (i : nat) t, tasks c !! i = Some t → added t = amount) →
       length (tasks c) = Z.to_nat (numberStream fl) ∧
       total (sh c) = GoInt.wrap (Z.of_nat (length (tasks c)) * amount) ∧
       (GoInt.in_range (Z.of_nat (length (tasks c)) * amount) →
        total (sh c) = Z.of_nat (length (tasks c)) * amount)) ∧
    (∀ (i j : nat) ti tj, tasks c !! i = Some ti → tasks c !! j = Some tj →
       in_cs ti = true → in_cs tj = true → i = j) ∧
    (∀ (i : nat) t d n re tmp, tasks c !! i = Some t →
       at_pc t = Store d n re tmp → tmp = total (sh c) ∧ locked (sh c) = true).
Proof.
  intros fl envs sched c.
  pose proof (run_inv fl envs sched (init fl) (inv_init fl)) as Hinv.
  fold c in Hinv. pose proof (inv_total c Hinv) as Ht.
  split; [done|]. split; [|split; [|split]].
  - intros Hr. by rewrite Ht, wrap_small.
  - intros amount Ha.
    assert (Hlen : length (tasks c) = Z.to_nat (numberStream fl)).
    { unfold c. rewrite run_length. unfold init. cbn [tasks]. apply length_replicate. }
    rewrite Ht, (Zsum_fmap_const added (tasks c) amount Ha).
    split; [done|]. split; [done|]. intros Hr. by rewrite wrap_small.
  - intros i j ti tj. by apply inv_exclusive.
  - intros i t d n re tmp Hi Hpc. split.
    + pose proof (inv_tmp c Hinv i t Hi) as Htmp. unfold tmp_ok in Htmp.
      by rewrite Hpc in Htmp.
    + apply (inv_in_cs_locked c i t Hinv Hi). unfold in_cs. by rewrite Hpc.
Qed.

(** The theorem on two streams of 5 bytes each, taken in turn. *)
Lemma total_no_lost_update_witness :
  total (sh (run Scenario.fl2 Scenario.envs_all_five (Scenario.round_robin 2 20)
               (init Scenario.fl2)))
  = 2 * 5.
Proof.
  destruct (total_no_lost_update Scenario.fl2 Scenario.envs_all_five
              (Scenario.round_robin 2 20)) as (_ & _ & H & _).
  destruct (H 5) as (Hlen & _ & Hexact).
  - intros [|[|i]] t; vm_compute; [by intros [= <-] | by intros [= <-] | done].
  - rewrite Hlen in Hexact. apply Hexact. clear. vm_compute.
    split; [discriminate | reflexivity].
Defined.

(** Without the mutex the model would lose updates: two goroutines that
    both read [total] before either writes it back.  Here the second
    goroutine cannot take the lock and waits. *)
Example lock_blocks_second_reader :
  let c := run Scenario.fl2 Scenario.envs_all_five
             [0; 0; 0; 0; 0; 1; 1; 1; 1; 1]%nat (init Scenario.fl2) in
  (at_pc <$> tasks c) = [Store Bidi 5 None 0; Lock Bidi 5 None]
  ∧ step Scenario.fl2 Scenario.envs_all_five 1 c = None.
Proof. vm_compute. done. Qed.

(** *** Durations and reads *)

Lemma all_done_lookup c (i : nat) t :
  all_done c = true → tasks c !! i = Some t → at_pc t = Done.
Proof.
  unfold all_done. rewrite forallb_forall. intros Hall Hi.
  assert (Hin : In t (tasks c)) by (apply list_elem_of_In; by eapply list_elem_of_lookup_2).
  specialize (Hall t Hin). unfold is_done in Hall. by destruct (at_pc t).
Qed.

Lemma elem_of_concat_fmap {A B} (f : A → list B) (l : list A) (i : nat) x b :
  l !! i = Some x → b ∈ f x → b ∈ concat (f <$> l).
Proof.
  revert i. induction l as [|a l IH]; intros [|i] Hi Hb; try done;
    rewrite fmap_cons, concat_cons; apply elem_of_app.
  - left. by injection Hi as ->.
  - right. by apply (IH i).
Qed.

Lemma recorded_in_times c (i : nat) t d :
  inv c → tasks c !! i = Some t → d ∈ recorded t → d ∈ times (sh c).
Proof.
  intros Hinv Hi Hd. rewrite (inv_times c Hinv).
  by apply (elem_of_concat_fmap recorded (tasks c) i t).
Qed.

(** C10.  A goroutine that has returned and has added bytes to [total]
    has appended exactly one duration to [times].  So once every
    goroutine has returned, a [total] that is not zero comes with a
    [times] that is not empty: of the two tests of the no-data guard,
    [len(times) == 0] can only hold when [total == 0] holds too. *)
Theorem total_nonzero_has_duration :
  ∀ fl envs sched,
    let c := run fl envs sched (init fl) in
    (∀ (i : nat) t, tasks c !! i = Some t → at_pc t = Done → added t ≠ 0 →
       recorded t = [elapsed (envs i)] ∧ elapsed (envs i) ∈ times (sh c)) ∧
    (all_done c = true → total (sh c) ≠ 0 → times (sh c) ≠ []) ∧
    (all_done c = true → times (sh c) = [] → total (sh c) = 0) ∧
    (all_done c = true →
     (Z.of_nat (length (times (sh c))) =? 0) || (total (sh c) =? 0)
     = (total (sh c) =? 0)).
Proof.
  intros fl envs sched c.
  pose proof (run_inv fl envs sched (init fl) (inv_init fl)) as Hinv. fold c in Hinv.
  assert (H1 : ∀ (i : nat) t, tasks c !! i = Some t → at_pc t = Done → added t ≠ 0 →
            recorded t = [elapsed (envs i)] ∧ elapsed (envs i) ∈ times (sh c)).
  { intros i t Hi Hpc Ha.
    destruct (run_local_inv _ _ _ _ _ Hi) as [_ Hl]. rewrite Hpc in Hl.
    destruct Hl as [(_ & Hz & _) | [Hr _]]; [done|]. split; [done|].
    apply (recorded_in_times c i t); [done | done |]. rewrite Hr. by left. }
  assert (H2 : all_done c = true → total (sh c) ≠ 0 → times (sh c) ≠ []).
  { intros Hall Ht. rewrite (inv_total c Hinv) in Ht.
    apply wrap_nonzero, Zsum_fmap_nonzero in Ht as (i & t & Hi & Ha).
    destruct (H1 i t Hi (all_done_lookup c i t Hall Hi) Ha) as [_ Hin].
    intros Hnil. rewrite Hnil in Hin. by apply not_elem_of_nil in Hin. }
  assert (H3 : all_done c = true → times (sh c) = [] → total (sh c) = 0).
  { intros Hall Hnil. destruct (Z.eq_dec (total (sh c)) 0) as [|Hne]; [done|].
    by destruct (H2 Hall Hne). }
  split; [done|]. split; [done|]. split; [done|].
  intros Hall. destruct (Z.eqb_spec (Z.of_nat (length (times (sh c)))) 0) as [Hl|Hl];
    [|done]. cbn [orb]. symmetry. apply Z.eqb_eq. apply H3; [done|].
  destruct (times (sh c)); [done | simpl in Hl; lia].
Qed.

(** The theorem on two streams of 5 bytes each, taken in turn. *)
Lemma total_nonzero_has_duration_witness :
  times (sh (run Scenario.fl2 Scenario.envs_all_five (Scenario.round_robin 2 20)
               (init Scenario.fl2))) ≠ [].
Proof.
  destruct (total_nonzero_has_duration Scenario.fl2 Scenario.envs_all_five
              (Scenario.round_robin 2 20)) as (_ & H & _).
  apply H; clear H.
  - vm_compute. reflexivity.
  - vm_compute. discriminate.
Defined.

(** The specification has a duration recorded only for a stream that
    yielded a read.  The code records one for every accepted stream whose
    read loop has ended: here the duplex accept gives a stream, its only
    [Read] returns no byte and [io.EOF], nothing is added to [total], and
    the goroutine still appends its duration, 7, to [times]. *)
Lemma empty_stream_records_duration :
  let c := run Scenario.fl1 (λ _, Scenario.empty_env 7) (Scenario.round_robin 1 12)
             (init Scenario.fl1) in
  accept_bidi (Scenario.empty_env 7) = None
  ∧ all_done c = true
  ∧ (reads_returned <$> tasks c) = [[{| rn := 0; rerr := Some io_EOF |}]]
  ∧ (yielded_read <$> tasks c) = [false]
  ∧ (recorded <$> tasks c) = [[7]]
  ∧ sh c = {| total := 0; times := [7]; locked := false |}.
Proof. vm_compute. done. Qed.

(** *** Timeouts in the read loops *)

Lemma run_task_add fl e (a b : nat) x :
  run_task fl e (a + b) x = run_task fl e b (run_task fl e a x).
Proof. revert x. induction a as [|a IH]; intros x; [done|]. cbn [Nat.add run_task]. apply IH. Qed.

Lemma task_step_arm fl e t s d :
  at_pc t = Arm d →
  task_step fl e t s = Some (goto t (Read d) (arm_events fl e d), s).
Proof.
  intros Hpc. unfold task_step, arm_events. rewrite Hpc.
  destruct d; [done|]. by destruct (uni_has_deadline e).
Qed.

Lemma after_read_timeout d te : is_timeout te = true → after_read d (Some te) = Arm d.
Proof. intros H. unfold after_read. destruct te; [done|]. by rewrite H. Qed.

Lemma run_task_S fl e (n : nat) t s t' s' :
  task_step fl e t s = Some (t', s') →
  run_task fl e (S n) (t, s) = run_task fl e n (t', s').
Proof. intros H. cbn [run_task fst snd]. by rewrite H. Qed.

(** One turn of a read loop on a [Read] that returns no byte and the
    error [re]: the deadline, the read, and the test of the error. *)
Lemma read_turn fl e d (m : nat) tr s re :
  reads e m = {| rn := 0; rerr := Some re |} →
  run_task fl e 3 ({| at_pc := Arm d; nreads := m; trace := tr |}, s)
  = ({| at_pc := after_read d (Some re); nreads := S m;
        trace := tr ++ arm_events fl e d ++ [EvRead 0 (Some re)] |}, s).
Proof.
  intros Hr.
  set (t0 := {| at_pc := Arm d; nreads := m; trace := tr |}).
  set (t1 := goto t0 (Read d) (arm_events fl e d)).
  set (t2 := {| at_pc := Check d (Some re); nreads := S m;
                trace := (tr ++ arm_events fl e d) ++ [EvRead 0 (Some re)] |}).
  assert (H1 : task_step fl e t0 s = Some (t1, s)) by (by apply task_step_arm).
  assert (H2 : task_step fl e t1 s = Some (t2, s)).
  { unfold task_step, t1, t0. cbn [goto at_pc nreads trace]. by rewrite Hr. }
  assert (H3 : task_step fl e t2 s = Some (goto t2 (after_read d (Some re)) [], s))
    by done.
  rewrite (run_task_S fl e 2 t0 s _ _ H1), (run_task_S fl e 1 t1 s _ _ H2),
    (run_task_S fl e 0 t2 s _ _ H3).
  cbn [run_task]. unfold goto, t2. cbn [at_pc nreads trace].
  by rewrite app_nil_r, <- app_assoc.
Qed.

Lemma timeout_turn fl e d (m : nat) tr s te :
  reads e m = {| rn := 0; rerr := Some te |} → is_timeout te = true →
  run_task fl e 3 ({| at_pc := Arm d; nreads := m; trace := tr |}, s)
  = ({| at_pc := Arm d; nreads := S m;
        trace := tr ++ arm_events fl e d ++ [EvRead 0 (Some te)] |}, s).
Proof.
  intros Hr Hte. rewrite (read_turn fl e d m tr s te Hr).
  by rewrite after_read_timeout.
Qed.

Lemma timeout_turns fl e d s te : is_timeout te = true →
  ∀ (k m : nat) tr,
    (∀ j : nat, (m <= j < m + k)%nat → reads e j = {| rn := 0; rerr := Some te |}) →
    run_task fl e (3 * k) ({| at_pc := Arm d; nreads := m; trace := tr |}, s)
    = ({| at_pc := Arm d; nreads := (m + k)%nat;
          trace := tr ++ concat (replicate k (arm_events fl e d
                                              ++ [EvRead 0 (Some te)])) |}, s).
Proof.
  intros Hte. induction k as [|k IH]; intros m tr Hr.
  - cbn. by rewrite app_nil_r, Nat.add_0_r.
  - replace (3 * S k)%nat with (3 + 3 * k)%nat by lia.
    rewrite run_task_add, (timeout_turn fl e d m tr s te) by (try done; apply Hr; lia).
    rewrite IH by (intros j Hj; apply Hr; lia).
    cbn [replicate concat]. rewrite <- !app_assoc. do 2 f_equal. lia.
Qed.

(** While every [Read] times out, the goroutine stays in its loop. *)
Lemma timeouts_forever fl e d s te :
  is_timeout te = true → (∀ j, reads e j = {| rn := 0; rerr := Some te |}) →
  ∀ (n : nat) t,
    at_pc t = Arm d ∨ at_pc t = Read d ∨ at_pc t = Check d (Some te) →
    in_loop (at_pc (run_task fl e n (t, s)).1) = true ∧ (run_task fl e n (t, s)).2 = s.
Proof.
  intros Hte Hr. induction n as [|n IH]; intros t Hpc.
  - cbn. by destruct Hpc as [-> | [-> | ->]].
  - cbn [run_task fst snd]. destruct Hpc as [Hpc | [Hpc | Hpc]].
    + rewrite (task_step_arm fl e t s d Hpc). apply IH. by right; left.
    + unfold task_step. rewrite Hpc, Hr. cbn [rn rerr Z.ltb Z.compare].
      apply IH. by right; right.
    + unfold task_step. rewrite Hpc, (after_read_timeout d te Hte).
      apply IH. by left.
Qed.

Lemma arm_events_capable fl e d :
  d = Bidi ∨ uni_has_deadline e = true →
  arm_events fl e d = [EvSetReadDeadline (readTO fl)].
Proof. intros [-> | H]; [done|]. destruct d; [done|]. unfold arm_events. by rewrite H. Qed.

(** C6.  In either read loop a [Read] that fails with an error whose
    [Timeout()] is true does not end the loop: the goroutine goes back to
    the head of the loop, where the read deadline is set again before the
    next [Read], on the duplex stream and on the one-way stream, whose
    type has the [SetReadDeadline] method.  The only way out of a loop is
    the test after a [Read] that returned [io.EOF] or an error that is
    not a timeout.  There is no bound: for every [k], after [k] reads
    that time out, each with its deadline set before it, the goroutine is
    at the head of the loop for its [k+1]-th read, and when every read
    times out it never leaves the loop. *)
Theorem timeouts_tolerated_without_bound :
  (∀ fl e t s d te, at_pc t = Check d (Some te) → is_timeout te = true →
     task_step fl e t s = Some (goto t (Arm d) [], s)) ∧
  (∀ fl e t s d te, at_pc t = Check d (Some te) → is_timeout te = true →
     d = Bidi ∨ uni_has_deadline e = true →
     run_task fl e 2 (t, s)
     = (goto (goto t (Arm d) []) (Read d) [EvSetReadDeadline (readTO fl)], s)) ∧
  (∀ d re, after_read d re = TimesLock d
           ↔ re = Some io_EOF ∨ ∃ err, re = Some err ∧ is_timeout err = false) ∧
  (∀ fl e t s t' s', in_loop (at_pc t) = true →
     task_step fl e t s = Some (t', s') → in_loop (at_pc t') = false →
     ∃ d re, at_pc t = Check d re ∧ at_pc t' = TimesLock d ∧
             (re = Some io_EOF ∨ ∃ err, re = Some err ∧ is_timeout err = false)) ∧
  (∀ fl e d s tr te (k : nat), is_timeout te = true →
     d = Bidi ∨ uni_has_deadline e = true →
     (∀ j : nat, (j < k)%nat → reads e j = {| rn := 0; rerr := Some te |}) →
     run_task fl e (3 * k) ({| at_pc := Arm d; nreads := 0; trace := tr |}, s)
     = ({| at_pc := Arm d; nreads := k;
           trace := tr ++ concat (replicate k [EvSetReadDeadline (readTO fl);
                                               EvRead 0 (Some te)]) |}, s)) ∧
  (∀ fl e d s tr te (n : nat), is_timeout te = true →
     (∀ j, reads e j = {| rn := 0; rerr := Some te |}) →
     in_loop (at_pc (run_task fl e n
                       ({| at_pc := Arm d; nreads := 0; trace := tr |}, s)).1) = true).
Proof.
  assert (Hexit : ∀ d re, after_read d re = TimesLock d
           ↔ re = Some io_EOF ∨ ∃ err, re = Some err ∧ is_timeout err = false).
  { intros d re. unfold after_read. destruct re as [[|to txt]|].
    - split; [by left | done].
    - destruct (is_timeout (Err to txt)) eqn:Ht.
      + split; [done|]. intros [|(err & [= <-] & Hf)]; [done | congruence].
      + split; [|done]. intros _. right. by eexists.
    - split; [done|]. by intros [|(err & ? & _)]. }
  assert (Hback : ∀ fl e t s d te, at_pc t = Check d (Some te) → is_timeout te = true →
            task_step fl e t s = Some (goto t (Arm d) [], s)).
  { intros fl e t s d te Hpc Hte. unfold task_step.
    by rewrite Hpc, after_read_timeout. }
  split; [|split; [|split; [|split; [|split]]]].
  - exact Hback.
  - intros fl e t s d te Hpc Hte Hcap.
    rewrite (run_task_S fl e 1 t s _ _ (Hback fl e t s d te Hpc Hte)).
    rewrite (run_task_S fl e 0 _ s _ _
               (task_step_arm fl e (goto t (Arm d) []) s d eq_refl)).
    cbn [run_task]. by rewrite (arm_events_capable fl e d Hcap).
  - exact Hexit.
  - intros fl e t s t' s' Hin Hs Hout. unfold task_step in Hs.
    destruct (at_pc t) as [ | err | err uerr | d | d | d n re | d n re | d n re tmp
                          | d re | d re | d | d | d tmp | d | | ] eqn:Hpc;
      try (cbn in Hin; discriminate).
    + destruct d; simplify_eq; try (cbn in Hout; discriminate).
    + simplify_eq. cbn [at_pc] in Hout.
      destruct (0 <? rn (reads e (nreads t))); cbn in Hout; discriminate.
    + destruct (locked s); simplify_eq; try (cbn in Hout; discriminate).
    + simplify_eq; try (cbn in Hout; discriminate).
    + simplify_eq; try (cbn in Hout; discriminate).
    + simplify_eq; try (cbn in Hout; discriminate).
    + simplify_eq. exists d, re. cbn [goto at_pc] in *. split; [done|].
      assert (Har : after_read d re = TimesLock d).
      { unfold after_read in *. destruct re as [[|to txt]|]; try done.
        by destruct (is_timeout (Err to txt)). }
      split; [done|]. by apply (proj1 (Hexit d re)).
  - intros fl e d s tr te k Hte Hcap Hr.
    rewrite (timeout_turns fl e d s te Hte k 0 tr).
    + by rewrite (arm_events_capable fl e d Hcap).
    + intros j Hj. apply Hr. lia.
  - intros fl e d s tr te n Hte Hr.
    apply (timeouts_forever fl e d s te Hte Hr n). by left.
Qed.

(** The theorem on a one-way stream that stalls four times before it
    ends. *)
Lemma timeouts_tolerated_without_bound_witness :
  run_task Scenario.fl2 (Scenario.stalling_uni_env 4) (3 * 4)
    ({| at_pc := Arm Uni; nreads := 0;
        trace := [EvAcceptStream accept_timeout; EvAcceptUniStream accept_timeout] |},
     {| total := 0; times := []; locked := false |})
  = ({| at_pc := Arm Uni; nreads := 4;
        trace := [EvAcceptStream accept_timeout; EvAcceptUniStream accept_timeout]
                 ++ concat (replicate 4
                      [EvSetReadDeadline (readTO Scenario.fl2);
                       EvRead 0 (Some Scenario.deadline_exceeded)]) |},
     {| total := 0; times := []; locked := false |}).
Proof.
  apply (proj1 (proj2 (proj2 (proj2 (proj2 timeouts_tolerated_without_bound))))).
  - reflexivity.
  - right. reflexivity.
  - intros [|[|[|[|j]]]] Hj; try reflexivity. lia.
Defined.

Example stalling_uni_stream_run :
  let c := run Scenario.fl1 (λ _, Scenario.stalling_uni_env 1) (Scenario.round_robin 1 14)
             (init Scenario.fl1) in
  (trace <$> tasks c)
  = [[EvAcceptStream 30000000000; EvAcceptUniStream 30000000000;
      EvSetReadDeadline 30000000000; EvRead 0 (Some Scenario.deadline_exceeded);
      EvSetReadDeadline 30000000000; EvRead 0 (Some io_EOF);
      EvAppend 0]]
  ∧ all_done c = true.
Proof. vm_compute. done. Qed.

Example stalling_stream_run :
  let c := run Scenario.fl2 (λ _, Scenario.stalling_env 2) (Scenario.round_robin 1 16)
             {| sh := {| total := 0; times := []; locked := false |};
                tasks := [init_task] |} in
  (trace <$> tasks c)
  = [[EvAcceptStream 30000000000;
      EvSetReadDeadline 30000000000; EvRead 0 (Some Scenario.deadline_exceeded);
      EvSetReadDeadline 30000000000; EvRead 0 (Some Scenario.deadline_exceeded);
      EvSetReadDeadline 30000000000; EvRead 0 (Some io_EOF);
      EvAppend 0; EvClose]]
  ∧ all_done c = true.
Proof. vm_compute. done. Qed.

End DownloadFacts.

(** * Further properties of the code *)

(** ** The payload generator, across sizes *)

Section PayloadMore.
Import Payload.

(** X1.  Every byte of the payload is in [0, 256), and the payload of a
    size is the beginning of the payload of every larger size that
    [make] can still allocate: growing [-d] only appends bytes. *)
Theorem generatePRData_prefix (avail n m : Z) :
  0 <= n <= m → m <= maxAlloc → m <= avail →
  ∃ bn bm : list Z,
    generatePRData avail n = Some bn ∧ generatePRData avail m = Some bm ∧
    bn = take (Z.to_nat n) bm ∧
    Forall (λ b, 0 <= b < 256) bm.
Proof.
  intros Hnm Hmax Havail.
  pose proof (generatePRData_bytes avail (Z.to_nat n)) as Hn.
  pose proof (generatePRData_bytes avail (Z.to_nat m)) as Hm.
  rewrite Z2Nat.id in Hn, Hm by lia.
  rewrite Hn, Hm by lia.
  eexists _, _. split; [done|]. split; [done|]. split.
  - rewrite <- fmap_take. f_equal.
    rewrite take_seq. f_equal. lia.
  - apply Forall_fmap, Forall_forall. intros k _. unfold GoInt.to_byte.
    apply Z.mod_pos_bound. lia.
Qed.

(** The theorem on sizes 2 and 4, with a kilobyte at hand. *)
Lemma generatePRData_prefix_witness :
  ∃ bn bm : list Z,
    generatePRData 1024 2 = Some bn ∧ generatePRData 1024 4 = Some bm ∧
    bn = take (Z.to_nat 2) bm ∧
    Forall (λ b, 0 <= b < 256) bm.
Proof.
  apply (generatePRData_prefix 1024 2 4); [lia | unfold maxAlloc; lia | lia].
Defined.

End PayloadMore.

(** ** The report, on any collection of durations *)

Section ReportMore.
Import Report.

Lemma Zsum_perm (l1 l2 : list Z) : l1 ≡ₚ l2 → Zsum l1 = Zsum l2.
Proof.
  induction 1 as [|x l1 l2 _ IH|x y l|l1 l2 l3 _ IH1 _ IH2]; simpl; lia.
Qed.

Lemma report_perm (total : Z) (times times' : list Z) :
  times ≡ₚ times' → report total times = report total times'.
Proof.
  intros Hp. unfold report.
  rewrite !totalDur_wrap_sum, (Zsum_perm _ _ Hp), (Permutation_length Hp).
  reflexivity.
Qed.

(** X2.  The report does not depend on the order in which the goroutines
    appended their durations: two collections that are permutations of
    each other give the same output, figure included. *)
Theorem report_order_irrelevant (total : Z) (times times' : list Z) :
  times ≡ₚ times' → report total times = report total times'.
Proof. apply report_perm. Qed.

(** The theorem on two durations swapped. *)
Lemma report_order_irrelevant_witness :
  report 4096 [700; 300] = report 4096 [300; 700].
Proof. apply report_order_irrelevant. apply perm_swap. Defined.

Lemma Zsum_bounds (lo hi : Z) (l : list Z) :
  Forall (λ d, lo <= d <= hi) l →
  Z.of_nat (length l) * lo <= Zsum l <= Z.of_nat (length l) * hi.
Proof.
  induction 1 as [|d l Hd _ IH]; [simpl; lia|].
  rewrite length_cons. change (Zsum (d :: l)) with (d + Zsum l). nia.
Qed.

(** X3.  When the durations are not negative and their sum fits an
    [int64], the average the report divides by is the sum over the count
    rounded down: it lies between the smallest and the largest duration,
    and it loses less than one nanosecond per stream. *)
Theorem average_within_bounds (times : list Z) (lo hi : Z) :
  times ≠ [] → 0 <= lo → Forall (λ d, lo <= d <= hi) times →
  GoInt.in_range (Zsum times) →
  ∃ avg,
    int_quo (totalDur times) (Z.of_nat (length times)) = Some avg ∧
    lo <= avg <= hi ∧
    avg * Z.of_nat (length times) <= Zsum times
    < (avg + 1) * Z.of_nat (length times).
Proof.
  intros Hne Hlo Hall Hr.
  pose proof (length_pos times Hne) as Hlen.
  pose proof (Zsum_bounds lo hi times Hall) as [Hl Hh].
  rewrite avgDur_defined, wrap_small by done.
  eexists. split; [done|].
  assert (H0 : 0 <= Zsum times) by nia.
  rewrite Z.quot_div_nonneg by lia.
  pose proof (Z.div_mod (Zsum times) (Z.of_nat (length times)) ltac:(lia)) as Hdm.
  pose proof (Z.mod_pos_bound (Zsum times) (Z.of_nat (length times)) Hlen) as Hm.
  set (q := Zsum times / Z.of_nat (length times)) in *.
  set (len := Z.of_nat (length times)) in *.
  split; [split|]; nia.
Qed.

(** The theorem on three streams. *)
Lemma average_within_bounds_witness :
  ∃ avg,
    int_quo (totalDur [10; 11; 13]) 3 = Some avg ∧
    10 <= avg <= 13 ∧
    avg * 3 <= Zsum [10; 11; 13] < (avg + 1) * 3.
Proof.
  apply (average_within_bounds [10; 11; 13] 10 13).
  - discriminate.
  - lia.
  - repeat constructor; lia.
  - vm_compute. split; [discriminate | reflexivity].
Defined.

End ReportMore.

(** ** The upload task on streams that are not ideal *)

Section UploadMore.
Import Upload.

Lemma chunk_choice (remaining : Z) :
  0 < remaining →
  ∃ chunk, (if remaining <? chunk_size then remaining else chunk_size) = chunk
           ∧ 0 < chunk <= 65536 ∧ chunk <= remaining.
Proof.
  intros Hr. unfold chunk_size. destruct (Z.ltb_spec remaining (64 * 1024)).
  - exists remaining. lia.
  - exists 65536. lia.
Qed.

Lemma written_write p tr : written (Write p :: tr) = p :: written tr.
Proof. reflexivity. Qed.

Lemma written_deadline d tr : written (SetWriteDeadline d :: tr) = written tr.
Proof. reflexivity. Qed.

(** Whatever the stream answers within [0 <= n <= len(p)], the offsets
    stay inside the payload: the slice never panics, and every chunk
    handed to [Write] has between 1 and 65536 bytes. *)
Lemma write_loop_safe (w : writer) (msg : list Z) :
  (∀ k p, p ≠ [] → 0 <= wn (w k p) <= Z.of_nat (length p)) →
  Z.of_nat (length msg) < 2 ^ 63 →
  ∀ fuel k off remaining,
    0 <= off → 0 <= remaining → off + remaining = Z.of_nat (length msg) →
    (write_loop fuel w msg k off remaining).2 ≠ Panicked ∧
    Forall (λ p, 0 < Z.of_nat (length p) <= 65536)
      (written (write_loop fuel w msg k off remaining).1).
Proof.
  intros Hw Hlen. induction fuel as [|fuel IH]; intros k off rem Ho Hr Hsum;
    [by split|].
  cbn [write_loop]. destruct (Z.ltb_spec 0 rem) as [Hpos|_]; [|by split].
  destruct (chunk_choice rem Hpos) as (chunk & -> & Hc1 & Hc2).
  rewrite (wrap_small (off + chunk)) by (unfold GoInt.in_range; lia).
  rewrite slice_take_drop by lia.
  set (p := take (Z.to_nat chunk) (drop (Z.to_nat off) msg)).
  assert (Hp : Z.of_nat (length p) = chunk).
  { unfold p. rewrite length_take, length_drop. lia. }
  assert (Hne : p ≠ []) by (apply nonempty_length; lia).
  specialize (Hw k p Hne). rewrite Hp in Hw.
  destruct (werr (w k p)) as [e|].
  - cbn [fst snd]. split; [done|]. rewrite written_write.
    constructor; [lia | by constructor].
  - cbn [fst snd].
    rewrite (wrap_small (off + wn (w k p))), (wrap_small (rem - wn (w k p)))
      by (unfold GoInt.in_range; lia).
    destruct (IH (S k) (off + wn (w k p)) (rem - wn (w k p))) as [Hnp Hall];
      [lia | lia | lia |].
    split; [done|]. rewrite written_write, written_deadline.
    constructor; [lia | done].
Qed.

(** X4.  On a stream that keeps to [0 <= n <= len(p)], whatever errors it
    returns and however little it takes, the upload task never panics:
    every slice of the payload is in bounds, and every chunk handed to
    [Write] has between 1 and 65536 bytes. *)
Theorem upload_task_never_panics (fuel : nat) (w : writer) (msg : list Z) :
  contract_writer w → Z.of_nat (length msg) < 2 ^ 63 →
  (upload_task fuel w msg).2 ≠ Panicked ∧
  Forall (λ p, 0 < Z.of_nat (length p) <= 65536)
    (written (upload_task fuel w msg).1).
Proof.
  intros Hw Hlen. unfold upload_task. cbn [fst snd].
  destruct (write_loop_safe w msg (λ k p _, Hw k p) Hlen fuel 0 0
              (Z.of_nat (length msg))) as [Hnp Hall]; [lia | lia | lia |].
  split; [done|].
  rewrite written_deadline, written_app. cbn. by rewrite app_nil_r.
Qed.

(** The theorem on a stream that takes one byte at a time and fails on
    its third write. *)
Lemma upload_task_never_panics_witness :
  (upload_task 9
     (λ k p, {| wn := Z.min 1 (Z.of_nat (length p));
                 werr := if (k =? 2)%nat then Some io_EOF else None |})
     [5; 6; 7; 8]).2 ≠ Panicked
  ∧ Forall (λ p, 0 < Z.of_nat (length p) <= 65536)
      (written (upload_task 9
         (λ k p, {| wn := Z.min 1 (Z.of_nat (length p));
                 werr := if (k =? 2)%nat then Some io_EOF else None |})
         [5; 6; 7; 8]).1).
Proof.
  apply upload_task_never_panics.
  - intros k p. cbn [wn]. lia.
  - simpl. lia.
Defined.

(** Outside of that contract the slice can panic: a negative count moves
    the offset before the payload. *)
Example upload_negative_count_panics :
  upload_task 5 (λ _ _, {| wn := -1; werr := None |}) [5; 6; 7]
  = ([SetWriteDeadline 30000000000; Write [5; 6; 7];
      SetWriteDeadline 30000000000; Close], Panicked).
Proof. reflexivity. Qed.

Lemma write_loop_short (w : writer) (msg : list Z) :
  short_writer w → Z.of_nat (length msg) < 2 ^ 63 →
  ∀ fuel k off remaining,
    0 <= off → 0 <= remaining → off + remaining = Z.of_nat (length msg) →
    remaining < Z.of_nat fuel →
    (write_loop fuel w msg k off remaining).2 = Completed ∧
    accepted_from w k (write_loop fuel w msg k off remaining).1
    = drop (Z.to_nat off) msg.
Proof.
  intros Hw Hlen. induction fuel as [|fuel IH]; intros k off rem Ho Hr Hsum Hfuel;
    [lia|].
  cbn [write_loop]. destruct (Z.ltb_spec 0 rem) as [Hpos|Hz].
  - destruct (chunk_choice rem Hpos) as (chunk & -> & Hc1 & Hc2).
    rewrite (wrap_small (off + chunk)) by (unfold GoInt.in_range; lia).
    rewrite slice_take_drop by lia.
    set (p := take (Z.to_nat chunk) (drop (Z.to_nat off) msg)).
    assert (Hp : Z.of_nat (length p) = chunk).
    { unfold p. rewrite length_take, length_drop. lia. }
    assert (Hne : p ≠ []) by (apply nonempty_length; lia).
    destruct (Hw k p) as [-> Hn]. specialize (Hn Hne). rewrite Hp in Hn.
    cbn [fst snd].
    rewrite (wrap_small (off + wn (w k p))), (wrap_small (rem - wn (w k p)))
      by (unfold GoInt.in_range; lia).
    destruct (IH (S k) (off + wn (w k p)) (rem - wn (w k p))) as [-> Hacc];
      [lia | lia | lia | lia |].
    split; [done|]. cbn [accepted_from]. rewrite Hacc.
    assert (Htk : ∀ n : nat, (n <= Z.to_nat chunk)%nat →
              take n p = take n (drop (Z.to_nat off) msg))
      by (intros n Hle; unfold p; by rewrite take_take, Nat.min_l).
    rewrite Htk by lia.
    replace (Z.to_nat (off + wn (w k p)))
      with (Z.to_nat off + Z.to_nat (wn (w k p)))%nat by lia.
    rewrite <- drop_drop. apply take_drop.
  - assert (rem = 0) by lia. subst rem. cbn [fst snd accepted_from].
    split; [done|]. by rewrite drop_ge by lia.
Qed.

(** X5.  A [Write] that takes only a part of its chunk without an error
    loses nothing: the task goes on from the byte after the last one
    taken, and when every [Write] takes at least one byte the task
    completes, the bytes taken being the payload, in order. *)
Theorem upload_task_resumes_short_writes (fuel : nat) (w : writer) (msg : list Z) :
  short_writer w → Z.of_nat (length msg) < 2 ^ 63 →
  Z.of_nat (length msg) < Z.of_nat fuel →
  (upload_task fuel w msg).2 = Completed ∧
  accepted_from w 0 (upload_task fuel w msg).1 = msg.
Proof.
  intros Hw Hlen Hfuel. unfold upload_task. cbn [fst snd].
  destruct (write_loop_short w msg Hw Hlen fuel 0 0 (Z.of_nat (length msg)))
    as [Hc Hacc]; [lia | lia | lia | lia |].
  split; [done|]. cbn [accepted_from].
  assert (Happ : ∀ k tr, accepted_from w k (tr ++ [Close]) = accepted_from w k tr).
  { intros k tr. revert k. induction tr as [|ev tr IH]; intros k; [done|].
    destruct ev; cbn [app accepted_from]; by rewrite IH. }
  by rewrite Happ, Hacc, drop_0.
Qed.

(** The theorem on a stream that takes two bytes at a time. *)
Lemma upload_task_resumes_short_writes_witness :
  (upload_task 6 (λ _ p, {| wn := Z.min 2 (Z.of_nat (length p)); werr := None |})
     [5; 6; 7; 8; 9]).2 = Completed
  ∧ accepted_from (λ _ p, {| wn := Z.min 2 (Z.of_nat (length p)); werr := None |}) 0
      (upload_task 6
         (λ _ p, {| wn := Z.min 2 (Z.of_nat (length p)); werr := None |})
         [5; 6; 7; 8; 9]).1
    = [5; 6; 7; 8; 9].
Proof.
  apply upload_task_resumes_short_writes.
  - intros k p. split; [done|]. cbn [wn]. destruct p; [done|]. simpl. lia.
  - simpl. lia.
  - simpl. lia.
Defined.

Example upload_two_bytes_at_a_time :
  written (upload_task 6
             (λ _ p, {| wn := Z.min 2 (Z.of_nat (length p)); werr := None |})
             [5; 6; 7; 8; 9]).1
  = [[5; 6; 7; 8; 9]; [7; 8; 9]; [9]].
Proof. reflexivity. Qed.

Lemma write_loop_stuck (msg : list Z) :
  msg ≠ [] → Z.of_nat (length msg) < 2 ^ 63 →
  ∀ fuel k,
    write_loop fuel stuck_writer msg k 0 (Z.of_nat (length msg))
    = (flat_map (λ c, [Write c; SetWriteDeadline write_deadline])
         (replicate fuel (take (Z.to_nat chunk_size) msg)), OutOfFuel).
Proof.
  intros Hne Hlen. induction fuel as [|fuel IH]; intros k; [done|].
  cbn [write_loop].
  assert (Hpos : 0 < Z.of_nat (length msg)) by (destruct msg; [done | simpl; lia]).
  destruct (Z.ltb_spec 0 (Z.of_nat (length msg))) as [_|]; [|lia].
  assert (Hchunk : ∃ chunk,
    (if Z.of_nat (length msg) <? chunk_size then Z.of_nat (length msg)
     else chunk_size) = chunk ∧ 0 < chunk <= Z.of_nat (length msg) ∧
    take (Z.to_nat chunk) msg = take (Z.to_nat chunk_size) msg).
  { unfold chunk_size. destruct (Z.ltb_spec (Z.of_nat (length msg)) (64 * 1024)).
    - eexists. split; [done|]. split; [lia|]. rewrite !take_ge; [done | lia | lia].
    - eexists. split; [done|]. split; [lia | done]. }
  destruct Hchunk as (chunk & -> & Hc & Htake).
  rewrite (wrap_small (0 + chunk)) by (unfold GoInt.in_range; lia).
  rewrite slice_take_drop by lia. change (Z.to_nat 0) with 0%nat. rewrite drop_0.
  cbn [stuck_writer werr wn]. rewrite Z.sub_0_r, Z.add_0_r.
  rewrite (wrap_small 0), (wrap_small (Z.of_nat (length msg)))
    by (unfold GoInt.in_range; lia).
  rewrite IH. cbn [fst snd replicate flat_map app]. by rewrite Htake.
Qed.

(** X6.  On a stream whose [Write] takes nothing and reports no error the
    loop makes no progress and has no way out: for every number of
    turns the task is still writing, each turn handing over the same
    first chunk under a fresh deadline. *)
Theorem upload_task_spins_without_progress (fuel : nat) (msg : list Z) :
  msg ≠ [] → Z.of_nat (length msg) < 2 ^ 63 →
  (upload_task fuel stuck_writer msg).2 = OutOfFuel ∧
  written (upload_task fuel stuck_writer msg).1
  = replicate fuel (take (Z.to_nat chunk_size) msg).
Proof.
  intros Hne Hlen. unfold upload_task. rewrite write_loop_stuck by done.
  cbn [fst snd]. split; [done|].
  by rewrite written_deadline, written_app, written_chunk_events, app_nil_r.
Qed.

(** The theorem on three bytes and seven turns. *)
Lemma upload_task_spins_without_progress_witness :
  (upload_task 7 stuck_writer [1; 2; 3]).2 = OutOfFuel ∧
  written (upload_task 7 stuck_writer [1; 2; 3]).1
  = replicate 7 (take (Z.to_nat chunk_size) [1; 2; 3]).
Proof.
  apply upload_task_spins_without_progress; [discriminate | simpl; lia].
Defined.

Lemma chunks_length : ∀ pieces (msg : list Z),
  Z.of_nat (length msg) <= chunk_size * Z.of_nat pieces →
  Z.of_nat (length (chunks pieces msg)) = (Z.of_nat (length msg) + 65535) / 65536.
Proof.
  unfold chunk_size.
  induction pieces as [|pieces IH]; intros msg Hlen.
  - destruct msg; [done | simpl in Hlen; lia].
  - destruct msg as [|b msg]; [done|].
    rewrite chunks_step by done. rewrite length_cons, Nat2Z.inj_succ.
    rewrite IH by (rewrite length_drop; unfold chunk_size; lia).
    rewrite length_drop.
    assert (Hc : Z.of_nat (Z.to_nat chunk_size) = 65536) by (unfold chunk_size; lia).
    set (len := length (b :: msg)) in *.
    assert (0 < Z.of_nat len) by (unfold len; simpl; lia).
    destruct (Z.le_gt_cases 65536 (Z.of_nat len)).
    + replace (Z.of_nat (len - Z.to_nat chunk_size)) with (Z.of_nat len - 65536) by lia.
      replace (Z.of_nat len + 65535) with (Z.of_nat len - 65536 + 65535 + 1 * 65536)
        by lia.
      rewrite Z.div_add by lia. lia.
    + replace (Z.of_nat (len - Z.to_nat chunk_size)) with 0 by lia.
      rewrite (Z.div_small (0 + 65535)) by lia.
      apply Z.div_unique with (r := Z.of_nat len - 1); lia.
Qed.

(** X7.  On a stream that takes every write the task calls [Write]
    [ceil(len / 65536)] times, none for an empty payload, and sets the
    30-second deadline once more than that: once before the loop and
    once after every chunk. *)
Theorem upload_task_call_counts (fuel : nat) (w : writer) (msg : list Z) :
  good_writer w → Z.of_nat (length msg) < 2 ^ 63 →
  Z.of_nat (length msg) + chunk_size <= chunk_size * Z.of_nat fuel →
  Z.of_nat (length (written (upload_task fuel w msg).1))
  = (Z.of_nat (length msg) + 65535) / 65536 ∧
  deadlines (upload_task fuel w msg).1
  = replicate (S (length (written (upload_task fuel w msg).1))) write_deadline.
Proof.
  intros Hw Hlen Hfuel. unfold upload_task.
  pose proof (write_loop_good w msg Hw Hlen fuel 0 0 (Z.of_nat (length msg))) as Hl.
  rewrite drop_0 in Hl. rewrite Hl by lia. cbn [fst snd].
  rewrite written_deadline, written_app, written_chunk_events, app_nil_r.
  split; [apply chunks_length; unfold chunk_size in *; lia|].
  generalize (chunks fuel msg) as cs. intros cs. unfold deadlines.
  cbn [omap list_omap replicate]. f_equal.
  induction cs as [|c cs IH]; [done|]. cbn. f_equal. apply IH.
Qed.

(** The theorem on a payload of 70000 bytes: two writes, three
    deadlines. *)
Lemma upload_task_call_counts_witness :
  Z.of_nat (length (written
     (upload_task 3 take_all (replicate (Z.to_nat 70000) 7)).1))
  = (Z.of_nat (length (replicate (Z.to_nat 70000) 7)) + 65535) / 65536
  ∧ deadlines (upload_task 3 take_all (replicate (Z.to_nat 70000) 7)).1
    = replicate (S (length (written
         (upload_task 3 take_all (replicate (Z.to_nat 70000) 7)).1))) write_deadline.
Proof.
  apply upload_task_call_counts.
  - intros k p. reflexivity.
  - rewrite length_replicate. lia.
  - rewrite length_replicate. unfold chunk_size. lia.
Defined.

End UploadMore.

(** ** The download goroutines and their peer *)

Section DownloadMore.
Import Download.

Implicit Types (t : task) (s : shared) (c : config) (e : env) (fl : flags).

Lemma after_read_exits d re :
  after_read d re = if exits re then TimesLock d else Arm d.
Proof.
  unfold after_read, exits. destruct re as [[|to txt]|]; try done.
  by destruct (is_timeout (Err to txt)).
Qed.

Lemma nonexit_before_S e (m : nat) :
  nonexit_before e m → exits (rerr (reads e m)) = false → nonexit_before e (S m).
Proof.
  intros Hm Hlast k Hk. destruct (decide (k = m)) as [->|Hne]; [done|].
  apply Hm. lia.
Qed.

Lemma read_result_eta (r : read_result) : {| rn := rn r; rerr := rerr r |} = r.
Proof. by destruct r. Qed.

Ltac peer_unfold :=
  unfold peer_inv, bytes_read, reads_returned, added, closes, current, exited, goto,
    dir_ok in *;
  cbn [at_pc nreads trace pending] in *.

Ltac peer_goal :=
  peer_unfold;
  rewrite ?omap_app, ?fmap_app, ?Zsum_app, ?length_app; cbn;
  rewrite ?app_nil_r, ?Nat.add_0_r, ?Z.add_0_r;
  intuition (try done; try lia).

Lemma task_step_peer fl e t s t' s' :
  peer_inv e t → task_step fl e t s = Some (t', s') → peer_inv e t'.
Proof.
  unfold task_step. intros Hinv Hs.
  destruct (at_pc t) as [ | err | err uerr | d | d | d n re | d n re | d n re tmp
                        | d re | d re | d | d | d tmp | d | | ] eqn:Hpc;
    unfold peer_inv in Hinv; rewrite Hpc in Hinv;
    destruct Hinv as (Hrr & Hbytes & Hat).
  - destruct (accept_bidi e) eqn:Hb; simplify_eq; peer_goal.
    unfold nonexit_before. intros k Hk. lia.
  - destruct (accept_uni e) eqn:Hu; simplify_eq; peer_goal.
    unfold nonexit_before. intros k Hk. lia.
  - simplify_eq. peer_goal.
  - destruct d; simplify_eq; [peer_goal|].
    destruct (uni_has_deadline e); peer_goal.
  - simplify_eq. destruct Hat as (Hd & Hne & Hcl).
    set (r := reads e (nreads t)) in *.
    assert (Hrr' : omap ev_read (trace t ++ [EvRead (rn r) (rerr r)])
                   = reads e <$> seq 0 (S (nreads t))).
    { rewrite omap_app, seq_S, fmap_app. cbn. fold (reads_returned t).
      by rewrite Hrr, read_result_eta. }
    assert (Hby : Zsum (pos_bytes <$> omap ev_read (trace t ++ [EvRead (rn r) (rerr r)]))
                  = bytes_read t + pos_bytes r).
    { rewrite omap_app, fmap_app, Zsum_app. cbn. rewrite read_result_eta.
      unfold bytes_read, reads_returned. lia. }
    assert (Hadd : Zsum (ev_bytes <$> (trace t ++ [EvRead (rn r) (rerr r)])) = added t).
    { rewrite fmap_app, Zsum_app. cbn. unfold added. lia. }
    assert (Hclo : length (omap ev_close (trace t ++ [EvRead (rn r) (rerr r)]))
                   = closes t).
    { rewrite omap_app, length_app. cbn. unfold closes. lia. }
    cbn [pending] in Hbytes. unfold peer_inv, bytes_read, reads_returned, added, closes.
    cbn [at_pc nreads trace]. rewrite Hby, Hadd, Hclo, Hrr'.
    split; [done|]. unfold pos_bytes, current. cbn [nreads pred].
    destruct (Z.ltb_spec 0 (rn r)); cbn [pending]; (split; [lia|]);
      repeat split; try done; lia.
  - destruct (locked s); simplify_eq. peer_goal.
  - simplify_eq. peer_goal.
  - simplify_eq. peer_goal.
  - simplify_eq. peer_goal.
  - simplify_eq. rewrite after_read_exits.
    destruct Hat as (Hd & (Hn & _ & -> & Hne) & Hcl).
    destruct (exits (rerr (reads e (pred (nreads t))))) eqn:Hex; peer_goal.
    replace (nreads t) with (S (pred (nreads t))) by lia.
    by apply nonexit_before_S.
  - destruct (locked s); simplify_eq. peer_goal.
  - simplify_eq. peer_goal.
  - simplify_eq. peer_goal.
  - simplify_eq. destruct d; peer_goal.
  - simplify_eq. peer_goal.
  - done.
Qed.

Lemma peer_inv_init e : peer_inv e init_task.
Proof. by repeat split. Qed.

Lemma run_peer_inv fl envs sched (i : nat) t :
  tasks (run fl envs sched (init fl)) !! i = Some t → peer_inv (envs i) t.
Proof.
  apply (run_tasks_sat (λ i t, peer_inv (envs i) t) fl envs).
  - intros j tj s t' s'. apply task_step_peer.
  - intros j tj ->%init_tasks. apply peer_inv_init.
Qed.

Lemma forallb_false_lookup {A} (f : A → bool) (l : list A) :
  forallb f l = false → ∃ (i : nat) x, l !! i = Some x ∧ f x = false.
Proof.
  induction l as [|a l IH]; [done|]. cbn [forallb].
  destruct (f a) eqn:Ha.
  - intros (i & x & Hi & Hx)%IH. by exists (S i), x.
  - intros _. by exists 0%nat, a.
Qed.

Lemma fmap_ext_lookup {A B} (f g : A → B) (l : list A) :
  (∀ (i : nat) x, l !! i = Some x → f x = g x) → f <$> l = g <$> l.
Proof.
  induction l as [|a l IH]; intros H; [done|].
  rewrite !fmap_cons, (H 0%nat a eq_refl), IH; [done|].
  intros i x Hi. apply (H (S i) x Hi).
Qed.

(** A goroutine that has not returned can move unless it waits for a
    mutex that is held. *)
Lemma task_step_enabled fl e t s :
  at_pc t ≠ Done → locked s = false ∨ in_cs t = true →
  is_Some (task_step fl e t s).
Proof.
  unfold task_step, in_cs. intros Hnd Hfree.
  destruct (at_pc t) as [ | err | err uerr | d | d | d n re | d n re | d n re tmp
                        | d re | d re | d | d | d tmp | d | | ]; try done;
    try (destruct (accept_bidi e)); try (destruct (accept_uni e));
    try (destruct d); try (eexists; reflexivity);
    (destruct Hfree as [-> | ?]; [eexists; reflexivity | done]).
Qed.

(** X8.  The download phase cannot deadlock: in every configuration an
    interleaving can reach, as long as some goroutine has not returned
    there is a goroutine that can take a step.  When the mutex is held,
    its holder is one. *)
Theorem download_never_deadlocks :
  ∀ fl envs sched,
    let c := run fl envs sched (init fl) in
    (all_done c = false → ∃ i : nat, is_Some (step fl envs i c)) ∧
    (∀ (i : nat) t, tasks c !! i = Some t → in_cs t = true →
       is_Some (step fl envs i c)).
Proof.
  intros fl envs sched c.
  pose proof (run_inv fl envs sched (init fl) (inv_init fl)) as Hinv. fold c in Hinv.
  assert (Hholder : ∀ (i : nat) t, tasks c !! i = Some t → in_cs t = true →
            is_Some (step fl envs i c)).
  { intros i t Hi Hcs. unfold step. rewrite Hi.
    destruct (task_step_enabled fl (envs i) t (sh c)) as [[t' s'] ->].
    - unfold in_cs in Hcs. by destruct (at_pc t).
    - by right.
    - by eexists. }
  split; [|done].
  intros (i & t & Hi & Hnd)%forallb_false_lookup.
  destruct (locked (sh c)) eqn:Hl.
  - pose proof (inv_mutex c Hinv) as Hm. rewrite Hl in Hm.
    destruct (Zsum_fmap_nonzero cs (tasks c)) as (j & tj & Hj & Hcs); [lia|].
    exists j. apply (Hholder j tj Hj). unfold cs in Hcs. by destruct (in_cs tj).
  - exists i. unfold step. rewrite Hi.
    destruct (task_step_enabled fl (envs i) t (sh c)) as [[t' s'] ->].
    + unfold is_done in Hnd. by destruct (at_pc t).
    + by left.
    + by eexists.
Qed.

(** The theorem on two streams, stopped while the first holds the
    mutex. *)
Lemma download_never_deadlocks_witness :
  ∃ i : nat,
    is_Some (step Scenario.fl2 Scenario.envs_all_five i
               (run Scenario.fl2 Scenario.envs_all_five
                  [0; 0; 0; 0; 0; 1; 1; 1; 1; 1]%nat (init Scenario.fl2))).
Proof.
  apply (proj1 (download_never_deadlocks Scenario.fl2 Scenario.envs_all_five
                  [0; 0; 0; 0; 0; 1; 1; 1; 1; 1]%nat)).
  vm_compute. reflexivity.
Defined.

(** X9.  The mutex is held exactly when some goroutine is between
    [Lock] and [Unlock]; so it is free once every goroutine has
    returned: no path out of a goroutine leaves it locked. *)
Theorem mutex_released :
  ∀ fl envs sched,
    let c := run fl envs sched (init fl) in
    (locked (sh c) = true ↔ ∃ (i : nat) t, tasks c !! i = Some t ∧ in_cs t = true) ∧
    (all_done c = true → locked (sh c) = false).
Proof.
  intros fl envs sched c.
  pose proof (run_inv fl envs sched (init fl) (inv_init fl)) as Hinv. fold c in Hinv.
  assert (Hiff : locked (sh c) = true
                 ↔ ∃ (i : nat) t, tasks c !! i = Some t ∧ in_cs t = true).
  { split.
    - intros Hl. pose proof (inv_mutex c Hinv) as Hm. rewrite Hl in Hm.
      destruct (Zsum_fmap_nonzero cs (tasks c)) as (j & tj & Hj & Hcs); [lia|].
      exists j, tj. split; [done|]. unfold cs in Hcs. by destruct (in_cs tj).
    - intros (i & t & Hi & Hcs). by apply (inv_in_cs_locked c i t). }
  split; [done|]. intros Hall.
  destruct (locked (sh c)) eqn:Hl; [|done].
  destruct (proj1 Hiff eq_refl) as (i & t & Hi & Hcs).
  pose proof (all_done_lookup c i t Hall Hi) as Hd.
  unfold in_cs in Hcs. by rewrite Hd in Hcs.
Qed.

(** The theorem on two streams run to the end. *)
Lemma mutex_released_witness :
  locked (sh (run Scenario.fl2 Scenario.envs_all_five (Scenario.round_robin 2 20)
                (init Scenario.fl2))) = false.
Proof.
  apply (proj2 (mutex_released Scenario.fl2 Scenario.envs_all_five
                  (Scenario.round_robin 2 20))).
  vm_compute. reflexivity.
Defined.

(** X10.  Every byte a [Read] returns is counted once: at every point a
    goroutine has added to [total] the bytes its reads have returned,
    but for those of a read it is just adding; the reads are the
    answers of its stream in order, and a read that returns bytes
    together with [io.EOF] or an error counts like any other.  Once
    every goroutine has returned, [total] is the sum of all the bytes
    read (in 64-bit arithmetic). *)
Theorem every_byte_counted :
  ∀ fl envs sched,
    let c := run fl envs sched (init fl) in
    (∀ (i : nat) t, tasks c !! i = Some t →
       reads_returned t = reads (envs i) <$> seq 0 (nreads t) ∧
       added t + pending (at_pc t) = bytes_read t ∧
       0 <= pending (at_pc t)) ∧
    (all_done c = true →
     total (sh c) = GoInt.wrap (Zsum (bytes_read <$> tasks c))).
Proof.
  intros fl envs sched c.
  pose proof (run_inv fl envs sched (init fl) (inv_init fl)) as Hinv. fold c in Hinv.
  split.
  - intros i t Hi. destruct (run_peer_inv _ _ _ _ _ Hi) as (Hrr & Hb & Hat).
    split; [done|]. split; [done|].
    destruct (at_pc t); cbn [pending]; try lia; by destruct Hat as (_ & ? & _).
  - intros Hall. rewrite (inv_total c Hinv). do 2 f_equal.
    apply fmap_ext_lookup. intros i t Hi.
    destruct (run_peer_inv _ _ _ _ _ Hi) as (_ & Hb & _).
    rewrite (all_done_lookup c i t Hall Hi) in Hb. cbn [pending] in Hb. lia.
Qed.

(** The theorem on two streams of 5 bytes each, run to the end. *)
Lemma every_byte_counted_witness :
  total (sh (run Scenario.fl2 Scenario.envs_all_five (Scenario.round_robin 2 20)
               (init Scenario.fl2)))
  = GoInt.wrap (Zsum (bytes_read <$>
      tasks (run Scenario.fl2 Scenario.envs_all_five (Scenario.round_robin 2 20)
               (init Scenario.fl2)))).
Proof.
  apply (proj2 (every_byte_counted Scenario.fl2 Scenario.envs_all_five
                  (Scenario.round_robin 2 20))).
  vm_compute. reflexivity.
Defined.

(** X11.  A goroutine closes its stream at most once, and only as its
    last step: one that has returned has closed its stream exactly when
    the duplex accept gave it one.  A one-way stream is never closed,
    and neither is anything in a slot without a stream. *)
Theorem close_only_duplex :
  ∀ fl envs sched (i : nat) t,
    tasks (run fl envs sched (init fl)) !! i = Some t →
    (closes t <= 1)%nat ∧
    (closes t = 1%nat → at_pc t = Done ∧ accept_bidi (envs i) = None) ∧
    (at_pc t = Done → accept_bidi (envs i) = None → closes t = 1%nat) ∧
    (is_Some (accept_bidi (envs i)) → closes t = 0%nat).
Proof.
  intros fl envs sched i t Hi.
  destruct (run_peer_inv _ _ _ _ _ Hi) as (_ & _ & Hat).
  assert (Hcases : (closes t = 0%nat ∧ (at_pc t = Done → is_Some (accept_bidi (envs i))))
                   ∨ (closes t = 1%nat ∧ at_pc t = Done ∧ accept_bidi (envs i) = None)).
  { unfold dir_ok, fails in Hat.
    destruct (at_pc t); try (left; split; [by intuition | done]).
    destruct Hat as [((Hb & _) & _ & Hc) | [(Hb & _ & Hc) | ((Hb & _) & _ & Hc)]].
    - by left.
    - by right.
    - by left. }
  destruct Hcases as [[Hc Hd] | (Hc & Hd & Hb)]; rewrite Hc.
  - split; [lia|]. split; [done|]. split; [|done].
    intros Hpc Hb. destruct (Hd Hpc) as [err Herr]. congruence.
  - split; [lia|]. split; [done|]. split; [done|].
    intros [err Herr]. congruence.
Qed.

(** The theorem on the first of two duplex streams, run to the end. *)
Lemma close_only_duplex_witness :
  closes (default init_task
            (tasks (run Scenario.fl2 Scenario.envs_all_five
                      (Scenario.round_robin 2 20) (init Scenario.fl2)) !! 0%nat))
  = 1%nat.
Proof.
  destruct (close_only_duplex Scenario.fl2 Scenario.envs_all_five
              (Scenario.round_robin 2 20) 0%nat
              (default init_task
                 (tasks (run Scenario.fl2 Scenario.envs_all_five
                           (Scenario.round_robin 2 20) (init Scenario.fl2)) !! 0%nat)))
    as (_ & _ & H & _).
  - vm_compute. reflexivity.
  - apply H; vm_compute; reflexivity.
Defined.

(** *** What a returned goroutine leaves behind *)

Lemma done_recorded fl envs sched (i : nat) t :
  tasks (run fl envs sched (init fl)) !! i = Some t → at_pc t = Done →
  recorded t = slot_duration (envs i) ∧ (got_stream (envs i) = false → added t = 0).
Proof.
  intros Hi Hpc.
  destruct (run_peer_inv _ _ _ _ _ Hi) as (_ & _ & Hat).
  destruct (run_local_inv _ _ _ _ _ Hi) as [_ Hl].
  rewrite Hpc in Hat, Hl. unfold slot_duration, got_stream, fails, dir_ok, exited in *.
  destruct Hat as [(([b Hb] & [u Hu]) & Hn & _)
                  | [(Hb & (Hn & _) & _) | (([b Hb] & Hu) & (Hn & _) & _)]];
    rewrite ?Hb, ?Hu; (destruct Hl as [(Hz & Ha & Hr) | (Hr & Hn')]; [|try lia]);
    try lia; by split.
Qed.

Lemma dir_ok_got_stream e d : dir_ok e d → got_stream e = true.
Proof.
  unfold dir_ok, got_stream. destruct d.
  - by intros ->.
  - intros [_ ->]. by destruct (accept_bidi e).
Qed.

Lemma fails_got_stream e : fails e → got_stream e = false.
Proof. intros [[b Hb] [u Hu]]. unfold got_stream. by rewrite Hb, Hu. Qed.

Lemma yielded_read_returned t : yielded_read t = true → reads_returned t ≠ [].
Proof. unfold yielded_read. by destruct (reads_returned t). Qed.

(** Where a goroutine stands with its duration: none yet, and if it has
    returned it had no stream; or its one duration, on a stream it was
    given and whose read loop a [Read] has ended. *)
Lemma recorded_cases fl envs sched (i : nat) t :
  tasks (run fl envs sched (init fl)) !! i = Some t →
  (recorded t = [] ∧
   (at_pc t = Done → nreads t = 0%nat ∧ got_stream (envs i) = false))
  ∨ (recorded t = [elapsed (envs i)] ∧ (1 <= nreads t)%nat ∧
     got_stream (envs i) = true ∧ exited (envs i) t).
Proof.
  intros Hi.
  destruct (run_local_inv _ _ _ _ _ Hi) as [_ Hl].
  destruct (run_peer_inv _ _ _ _ _ Hi) as (_ & _ & Hat).
  destruct (at_pc t) eqn:Hpc;
    try (left; split; [apply Hl | done]).
  - right. destruct Hl as [Hr Hn], Hat as (Hd & Hx & _).
    repeat split; try done; try apply Hx. by apply (dir_ok_got_stream _ d).
  - right. destruct Hl as [Hr Hn], Hat as (Hd & Hx & _).
    repeat split; try done; try apply Hx. by apply (dir_ok_got_stream _ Bidi).
  - destruct Hl as [(Hz & _ & Hr) | [Hr Hn]].
    + left. split; [done|]. intros _. split; [done|].
      destruct Hat as [(Hf & _) | [(_ & (Hn & _) & _) | (_ & (Hn & _) & _)]];
        [by apply fails_got_stream | lia | lia].
    + right.
      destruct Hat as [(_ & Hz & _) | [(Hd & Hx & _) | (Hd & Hx & _)]]; [lia | |].
      * repeat split; try done; try apply Hx. by apply (dir_ok_got_stream _ Bidi).
      * repeat split; try done; try apply Hx. by apply (dir_ok_got_stream _ Uni).
Qed.

(** C5, as amended.  On every schedule a goroutine appends at most one
    duration, and only on a stream it has accepted, duplex or one-way,
    after a [Read] has ended its loop (with [io.EOF] or an error that is
    not a timeout).  Once the goroutine has returned it has an entry
    exactly when one of its accepts gave a stream, whether or not a
    [Read] returned any byte; so a stream that yielded a read has its
    entry, and so has one that yielded none.  The entries of all the
    goroutines are the contents of [times]. *)
Theorem duration_iff_accepted :
  ∀ fl envs sched,
    let c := run fl envs sched (init fl) in
    (∀ (i : nat) t, tasks c !! i = Some t →
       (length (recorded t) <= 1)%nat ∧
       (recorded t ≠ [] →
          got_stream (envs i) = true ∧ exited (envs i) t ∧ reads_returned t ≠ []) ∧
       (at_pc t = Done → (recorded t ≠ [] ↔ got_stream (envs i) = true)) ∧
       (at_pc t = Done → got_stream (envs i) = true →
          recorded t = [elapsed (envs i)]) ∧
       (at_pc t = Done → yielded_read t = true → recorded t ≠ []) ∧
       (∀ d, d ∈ recorded t → d ∈ times (sh c))) ∧
    times (sh c) ≡ₚ concat (recorded <$> tasks c).
Proof.
  intros fl envs sched c.
  pose proof (run_inv fl envs sched (init fl) (inv_init fl)) as Hinv. fold c in Hinv.
  split; [|apply Hinv].
  intros i t Hi. destruct (run_local_inv _ _ _ _ _ Hi) as [Hn _].
  pose proof (recorded_cases fl envs sched i t Hi) as Hcases.
  split; [|split; [|split; [|split; [|split]]]].
  - destruct Hcases as [[-> _] | [-> _]]; simpl; lia.
  - intros Hrec. destruct Hcases as [[? _] | (_ & Hn1 & Hg & Hx)]; [done|].
    split; [done|]. split; [done|]. intros Hnil. rewrite Hn, Hnil in Hn1. simpl in Hn1. lia.
  - intros Hpc. destruct Hcases as [[-> Hd] | (-> & _ & Hg & _)].
    + destruct (Hd Hpc) as [_ Hg]. split; [done | congruence].
    + by split.
  - intros Hpc Hg. destruct Hcases as [[_ Hd] | (-> & _)]; [|done].
    destruct (Hd Hpc) as [_ Hg']. congruence.
  - intros Hpc Hy%yielded_read_returned.
    destruct Hcases as [[_ Hd] | (-> & _)]; [|done].
    destruct (Hd Hpc) as [Hz _]. rewrite Hn in Hz. by destruct (reads_returned t).
  - intros d. by apply (recorded_in_times c i t).
Qed.

(** The theorem on a stream that ends at once without a byte: its
    goroutine has returned, the stream was accepted, and the duration is
    recorded. *)
Lemma duration_iff_accepted_witness :
  recorded (default init_task
              (tasks (run Scenario.fl1 (λ _, Scenario.empty_env 7)
                        (Scenario.round_robin 1 12) (init Scenario.fl1)) !! 0%nat))
  = [elapsed (Scenario.empty_env 7)].
Proof.
  destruct (duration_iff_accepted Scenario.fl1 (λ _, Scenario.empty_env 7)
              (Scenario.round_robin 1 12)) as [H _].
  destruct (H 0%nat (default init_task
              (tasks (run Scenario.fl1 (λ _, Scenario.empty_env 7)
                        (Scenario.round_robin 1 12) (init Scenario.fl1)) !! 0%nat)))
    as (_ & _ & _ & Hrec & _); clear H.
  - vm_compute. reflexivity.
  - apply Hrec; clear Hrec; vm_compute; reflexivity.
Defined.

Lemma exited_unique e t1 t2 : exited e t1 → exited e t2 → nreads t1 = nreads t2.
Proof.
  intros (Hn1 & Hx1 & Hb1) (Hn2 & Hx2 & Hb2).
  destruct (Nat.lt_trichotomy (pred (nreads t1)) (pred (nreads t2))) as [Hlt|[Heq|Hgt]].
  - specialize (Hb2 _ Hlt). congruence.
  - lia.
  - specialize (Hb1 _ Hgt). congruence.
Qed.

(** What a goroutine has added when it returns depends on its peer
    alone, not on the interleaving. *)
Lemma done_added_unique e t1 t2 :
  peer_inv e t1 → peer_inv e t2 → at_pc t1 = Done → at_pc t2 = Done →
  added t1 = added t2.
Proof.
  intros (Hr1 & Hb1 & Hat1) (Hr2 & Hb2 & Hat2) Hpc1 Hpc2.
  rewrite Hpc1 in Hb1, Hat1. rewrite Hpc2 in Hb2, Hat2. cbn [pending] in *.
  assert (Hn : nreads t1 = nreads t2).
  { unfold fails, dir_ok in *.
    destruct Hat1 as [(([b1 Hb] & [u1 Hu]) & Hn1 & _)
                     | [(Hb & Hx1 & _) | (([b1 Hb] & Hu) & Hx1 & _)]];
    destruct Hat2 as [(([b2 Hb'] & [u2 Hu']) & Hn2 & _)
                     | [(Hb' & Hx2 & _) | (([b2 Hb'] & Hu') & Hx2 & _)]];
      try congruence; by apply (exited_unique e). }
  unfold bytes_read in *. rewrite Hr1, Hr2, Hn in *. lia.
Qed.

Lemma slot_durations_length envs (l : list nat) :
  (length (concat ((λ i, slot_duration (envs i)) <$> l)) <= length l)%nat.
Proof.
  induction l as [|i l IH]; [done|].
  rewrite fmap_cons, concat_cons, length_app, length_cons.
  unfold slot_duration at 1. destruct (got_stream (envs i)); simpl; lia.
Qed.

Lemma times_canonical fl envs sched :
  all_done (run fl envs sched (init fl)) = true →
  times (sh (run fl envs sched (init fl)))
  ≡ₚ concat ((λ i, slot_duration (envs i))
              <$> seq 0 (Z.to_nat (numberStream fl))).
Proof.
  intros Hall. set (c := run fl envs sched (init fl)) in *.
  pose proof (run_inv fl envs sched (init fl) (inv_init fl)) as Hinv. fold c in Hinv.
  rewrite (inv_times c Hinv).
  assert (Hlen : length (tasks c) = Z.to_nat (numberStream fl)).
  { unfold c. rewrite run_length. unfold init. cbn [tasks]. apply length_replicate. }
  replace (recorded <$> tasks c)
    with ((λ i, slot_duration (envs i)) <$> seq 0 (Z.to_nat (numberStream fl)));
    [done|].
  apply list_eq. intros i. rewrite !list_lookup_fmap.
  destruct (decide (i < Z.to_nat (numberStream fl))%nat) as [Hlt|Hge].
  - rewrite lookup_seq_lt by done.
    destruct (lookup_lt_is_Some_2 (tasks c) i) as [t Hi]; [lia|].
    rewrite Hi. cbn. f_equal. symmetry.
    by apply (done_recorded fl envs sched i t Hi (all_done_lookup c i t Hall Hi)).
  - rewrite lookup_seq_ge by lia. by rewrite lookup_ge_None_2 by lia.
Qed.

(** X12.  Once every goroutine has returned, [times] holds one duration
    for every slot that got a stream, duplex or one-way, and nothing
    for the others, in some order; so it never holds more entries than
    there are slots. *)
Theorem times_at_barrier :
  ∀ fl envs sched,
    let c := run fl envs sched (init fl) in
    all_done c = true →
    times (sh c)
    ≡ₚ concat ((λ i, slot_duration (envs i)) <$> seq 0 (Z.to_nat (numberStream fl)))
    ∧ (length (times (sh c)) <= Z.to_nat (numberStream fl))%nat.
Proof.
  intros fl envs sched c Hall.
  pose proof (times_canonical fl envs sched Hall) as Hp. fold c in Hp.
  split; [done|]. rewrite (Permutation_length Hp).
  etrans; [apply slot_durations_length|]. by rewrite length_seq.
Qed.

(** The theorem on two slots, the first without a stream. *)
Lemma times_at_barrier_witness :
  times (sh (run Scenario.fl2 Scenario.envs_one_missing (Scenario.round_robin 2 20)
               (init Scenario.fl2)))
  ≡ₚ concat ((λ i, slot_duration (Scenario.envs_one_missing i))
              <$> seq 0 (Z.to_nat (numberStream Scenario.fl2)))
  ∧ (length (times (sh (run Scenario.fl2 Scenario.envs_one_missing
                          (Scenario.round_robin 2 20) (init Scenario.fl2))))
     <= Z.to_nat (numberStream Scenario.fl2))%nat.
Proof.
  apply (times_at_barrier Scenario.fl2 Scenario.envs_one_missing
           (Scenario.round_robin 2 20)).
  vm_compute. reflexivity.
Defined.

Lemma nonexit_before_same e1 e2 m :
  same_answers e1 e2 → nonexit_before e1 m → nonexit_before e2 m.
Proof. intros (_ & _ & Hr) H k Hk. rewrite <- Hr. by apply H. Qed.

Lemma exited_same e1 e2 t : same_answers e1 e2 → exited e1 t → exited e2 t.
Proof.
  intros Hs (Hn & Hx & Hb). split; [done|]. split.
  - destruct Hs as (_ & _ & Hr). by rewrite <- Hr.
  - by apply (nonexit_before_same e1).
Qed.

Lemma current_same e1 e2 t n re :
  same_answers e1 e2 → current e1 t n re → current e2 t n re.
Proof.
  intros Hs (Hn & -> & -> & Hb). pose proof Hs as (_ & _ & Hr).
  split; [done|]. rewrite !Hr. split; [done|]. split; [done|].
  by apply (nonexit_before_same e1).
Qed.

Lemma dir_ok_same e1 e2 d : same_answers e1 e2 → dir_ok e1 d → dir_ok e2 d.
Proof. intros (Hb & Hu & _). unfold dir_ok. by rewrite Hb, Hu. Qed.

Lemma fails_same e1 e2 : same_answers e1 e2 → fails e1 → fails e2.
Proof. intros (Hb & Hu & _). unfold fails. by rewrite Hb, Hu. Qed.

(** How a goroutine stands to its peer depends on the answers of the
    peer alone. *)
Lemma peer_inv_same e1 e2 t : same_answers e1 e2 → peer_inv e1 t → peer_inv e2 t.
Proof.
  intros Hs (Hrr & Hadd & Hat). pose proof Hs as (Hb & Hu & Hr).
  split; [|split; [done|]].
  - rewrite Hrr. apply list_fmap_ext. intros _ k _. apply Hr.
  - destruct (at_pc t);
      rewrite <- ?Hb, <- ?Hu, <- ?Hr;
      repeat match goal with
             | H : _ ∧ _ |- _ => destruct H
             | H : dir_ok e1 _ |- _ => apply (dir_ok_same e1 e2 _ Hs) in H
             | H : exited e1 _ |- _ => apply (exited_same e1 e2 _ Hs) in H
             | H : current e1 _ _ _ |- _ => apply (current_same e1 e2 _ _ _ Hs) in H
             | H : nonexit_before e1 _ |- _ => apply (nonexit_before_same e1 e2 _ Hs) in H
             | H : fails e1 |- _ => apply (fails_same e1 e2 Hs) in H
             end;
      try done.
    destruct Hat as [(Hf & ?) | [(Hd & Hx & ?) | (Hd & Hx & ?)]].
    + left. split; [by apply (fails_same e1)|done].
    + right; left. split; [by apply (dir_ok_same e1)|].
      split; [by apply (exited_same e1)|done].
    + right; right. split; [by apply (dir_ok_same e1)|].
      split; [by apply (exited_same e1)|done].
Qed.

Lemma got_stream_same e1 e2 : same_answers e1 e2 → got_stream e1 = got_stream e2.
Proof. intros (Hb & Hu & _). unfold got_stream. by rewrite Hb, Hu. Qed.

Lemma slot_durations_count envs1 envs2 (l : list nat) :
  (∀ i, same_answers (envs1 i) (envs2 i)) →
  length (concat ((λ i, slot_duration (envs1 i)) <$> l))
  = length (concat ((λ i, slot_duration (envs2 i)) <$> l)).
Proof.
  intros Hs. induction l as [|i l IH]; [done|].
  rewrite !fmap_cons, !concat_cons, !length_app, IH. f_equal.
  unfold slot_duration. rewrite (got_stream_same _ _ (Hs i)).
  by destruct (got_stream (envs2 i)).
Qed.

(** X13.  The byte count of the download phase does not depend on how
    the goroutines interleave, nor on how long the reads take: two runs
    against peers that answer the accepts and the reads alike, on
    schedules that both let every goroutine return, leave the same
    [total], the same number of durations in [times], and so the same
    outcome of the guard of the report.  The durations themselves, and
    with them the speed that is printed, are not determined. *)
Theorem total_schedule_independent :
  ∀ fl envs1 envs2 sched1 sched2,
    let c1 := run fl envs1 sched1 (init fl) in
    let c2 := run fl envs2 sched2 (init fl) in
    (∀ i, same_answers (envs1 i) (envs2 i)) →
    all_done c1 = true → all_done c2 = true →
    total (sh c1) = total (sh c2) ∧
    length (times (sh c1)) = length (times (sh c2)) ∧
    (Z.of_nat (length (times (sh c1))) =? 0) || (total (sh c1) =? 0)
    = (Z.of_nat (length (times (sh c2))) =? 0) || (total (sh c2) =? 0).
Proof.
  intros fl envs1 envs2 sched1 sched2 c1 c2 Hs Hall1 Hall2.
  pose proof (run_inv fl envs1 sched1 (init fl) (inv_init fl)) as Hinv1.
  pose proof (run_inv fl envs2 sched2 (init fl) (inv_init fl)) as Hinv2.
  fold c1 in Hinv1. fold c2 in Hinv2.
  assert (Hlen : length (tasks c1) = length (tasks c2))
    by (unfold c1, c2; by rewrite !run_length).
  assert (Ht : total (sh c1) = total (sh c2)).
  { rewrite (inv_total c1 Hinv1), (inv_total c2 Hinv2). do 2 f_equal.
    apply list_eq. intros i. rewrite !list_lookup_fmap.
    destruct (tasks c1 !! i) as [t1|] eqn:H1.
    - destruct (lookup_lt_is_Some_2 (tasks c2) i) as [t2 H2].
      { rewrite <- Hlen. by eapply lookup_lt_Some. }
      rewrite H2. cbn. f_equal.
      apply (done_added_unique (envs2 i)).
      + apply (peer_inv_same (envs1 i)); [done|].
        by apply (run_peer_inv fl envs1 sched1 i).
      + by apply (run_peer_inv fl envs2 sched2 i).
      + by apply (all_done_lookup c1 i).
      + by apply (all_done_lookup c2 i).
    - rewrite lookup_ge_None_2; [done|]. rewrite <- Hlen. by apply lookup_ge_None_1. }
  assert (Hn : length (times (sh c1)) = length (times (sh c2))).
  { unfold c1, c2.
    rewrite (Permutation_length (times_canonical fl envs1 sched1 Hall1)),
      (Permutation_length (times_canonical fl envs2 sched2 Hall2)).
    by apply slot_durations_count. }
  split; [done|]. split; [done|]. by rewrite Hn, Ht.
Qed.

(** The theorem on two streams of 5 bytes: taken in turn and read in
    one second each, and one after the other and read more slowly. *)
Lemma total_schedule_independent_witness :
  total (sh (run Scenario.fl2 Scenario.envs_all_five (Scenario.round_robin 2 20)
               (init Scenario.fl2)))
  = total (sh (run Scenario.fl2 Scenario.envs_all_five_slower
                 (replicate 16 0%nat ++ replicate 16 1%nat) (init Scenario.fl2))).
Proof.
  apply (total_schedule_independent Scenario.fl2 Scenario.envs_all_five
           Scenario.envs_all_five_slower
           (Scenario.round_robin 2 20) (replicate 16 0%nat ++ replicate 16 1%nat)).
  - intros i. split; [reflexivity|]. split; [reflexivity|]. intros k. reflexivity.
  - vm_compute. reflexivity.
  - vm_compute. reflexivity.
Defined.

(** The durations are not determined by the answers of the peer: the
    two runs of the witness leave different entries in [times]. *)
Example durations_depend_on_timing :
  times (sh (run Scenario.fl2 Scenario.envs_all_five (Scenario.round_robin 2 20)
               (init Scenario.fl2))) = [1000; 1000]
  ∧ times (sh (run Scenario.fl2 Scenario.envs_all_five_slower
                 (replicate 16 0%nat ++ replicate 16 1%nat) (init Scenario.fl2)))
    = [2000; 2001].
Proof. vm_compute. done. Qed.

End DownloadMore.

(** ** The whole run *)

Section MainFacts.
Import Download Main.

Implicit Types (t : task) (s : shared) (c : config) (e : env) (fl : flags).






Lemma uploads_ended_pass (ups : list Upload.slot_result) :
  uploads_ended ups →
  existsb slot_panicked ups = false ∧ existsb slot_stuck ups = false.
Proof.
  induction 1 as [|r ups [Hp Hs] _ [IHp IHs]]; [done|].
  cbn [existsb]. by rewrite Hp, Hs, IHp, IHs.
Qed.



(** Without the condition on the uploads the run does not get that far:
    on streams that take nothing the barrier of the upload phase is not
    passed, and nothing is reported. *)
Example stuck_uploads_block_the_run :
  main Scenario.fl_small 2 Scenario.memory
    {| dial := None;
       up := λ _, {| Upload.open_err := None; Upload.wr := Upload.stuck_writer |};
       down := λ _, Scenario.no_stream_env |}
    (Scenario.round_robin 2 3)
  = UploadWaiting
      (replicate 2
         (Upload.Ran
            [Upload.SetWriteDeadline 30000000000; Upload.Write [143; 226; 70];
             Upload.SetWriteDeadline 30000000000; Upload.Write [143; 226; 70];
             Upload.SetWriteDeadline 30000000000; Upload.Close]
            Upload.OutOfFuel)).
Proof. vm_compute. reflexivity. Qed.

Lemma upload_task_good (fuel : nat) (w : Upload.writer) (msg : list Z) :
  Upload.good_writer w → Z.of_nat (length msg) < 2 ^ 63 →
  Z.of_nat (length msg) + Upload.chunk_size <= Upload.chunk_size * Z.of_nat fuel →
  (Upload.upload_task fuel w msg).2 = Upload.Completed ∧
  concat (Upload.written (Upload.upload_task fuel w msg).1) = msg.
Proof.
  intros Hw Hlen Hfuel. unfold Upload.upload_task.
  pose proof (write_loop_good w msg Hw Hlen fuel 0 0 (Z.of_nat (length msg))) as Hl.
  rewrite drop_0 in Hl. rewrite Hl by lia. cbn [fst snd]. split; [done|].
  change (Upload.written (?a :: ?l)) with (Upload.written l).
  rewrite written_app, written_chunk_events, app_nil_r.
  apply chunks_concat. unfold Upload.chunk_size in *. lia.
Qed.

(** X15.  When the dial succeeds, the payload can be allocated (a [-d]
    of at most [maxAlloc] and within the memory at hand), and every
    stream opens and takes its writes, the upload phase passes its
    barrier having handed the same payload to each of the [-n] streams:
    the [-d] bytes of the generator, whole and in order; in all, [-n]
    times [-d] bytes. *)
Theorem main_uploads_payload (fl : flags) (fuel : nat) (avail : Z) (p : peer)
    (sched : list nat) :
  dial p = None →
  0 <= dataSize fl → dataSize fl <= Payload.maxAlloc → dataSize fl <= avail →
  dataSize fl + Upload.chunk_size <= Upload.chunk_size * Z.of_nat fuel →
  (∀ i : nat, (i < Z.to_nat (numberStream fl))%nat →
     Upload.open_err (up p i) = None ∧ Upload.good_writer (Upload.wr (up p i))) →
  ∃ msg,
    Payload.generatePRData avail (dataSize fl) = Some msg ∧
    Z.of_nat (length msg) = dataSize fl ∧
    (∃ c, main fl fuel avail p sched = Waiting (uploads (main fl fuel avail p sched)) c
          ∨ ∃ out, main fl fuel avail p sched
                   = Finished (uploads (main fl fuel avail p sched)) c out) ∧
    length (uploads (main fl fuel avail p sched)) = Z.to_nat (numberStream fl) ∧
    Forall (λ r, ∃ tr, r = Upload.Ran tr Upload.Completed
                       ∧ concat (Upload.written tr) = msg)
      (uploads (main fl fuel avail p sched)) ∧
    Zsum ((λ r, Z.of_nat (length (slot_bytes r)))
            <$> uploads (main fl fuel avail p sched))
    = Z.of_nat (Z.to_nat (numberStream fl)) * dataSize fl.
Proof.
  intros Hdial Hsize Hmax Havail Hfuel Hslots.
  pose proof (generatePRData_bytes avail (Z.to_nat (dataSize fl))) as Hgen.
  rewrite Z2Nat.id in Hgen by done. specialize (Hgen Hmax Havail).
  eexists. split; [exact Hgen|].
  set (msg := (λ k, GoInt.to_byte (Payload.park_miller_nth (S k)))
                <$> seq 0 (Z.to_nat (dataSize fl))) in *.
  assert (Hlen : Z.of_nat (length msg) = dataSize fl).
  { unfold msg. rewrite length_fmap, length_seq. lia. }
  split; [done|].
  assert (Hall : Forall (λ r, ∃ tr, r = Upload.Ran tr Upload.Completed
                                    ∧ concat (Upload.written tr) = msg)
            (Upload.upload_phase fuel msg (upload_slots fl p))).
  { unfold Upload.upload_phase, upload_slots.
    apply Forall_fmap, Forall_fmap, Forall_forall. intros i Hi%elem_of_seq.
    destruct (Hslots i ltac:(lia)) as [Hopen Hgood]. cbn.
    unfold Upload.upload_slot. rewrite Hopen.
    assert (Hlt : Z.of_nat (length msg) < 2 ^ 63)
      by (unfold Payload.maxAlloc in Hmax; lia).
    destruct (upload_task_good fuel (Upload.wr (up p i)) msg Hgood) as [Ho Hc];
      [done | lia |].
    eexists. rewrite Ho. by split. }
  assert (Hend : uploads_ended (Upload.upload_phase fuel msg (upload_slots fl p))).
  { eapply Forall_impl; [exact Hall|]. by intros r (tr & -> & _). }
  destruct (uploads_ended_pass _ Hend) as [Hnp Hns].
  assert (Hups : uploads (main fl fuel avail p sched)
                 = Upload.upload_phase fuel msg (upload_slots fl p)
                 ∧ ∃ c, main fl fuel avail p sched
                        = Waiting (Upload.upload_phase fuel msg (upload_slots fl p)) c
                        ∨ ∃ out, main fl fuel avail p sched
                                 = Finished
                                     (Upload.upload_phase fuel msg (upload_slots fl p))
                                     c out).
  { unfold main. rewrite Hdial, Hgen, Hnp, Hns.
    destruct (Report.main_after_download _) as [out|]; cbn [uploads].
    - split; [done|]. eexists. right. by eexists.
    - split; [done|]. eexists. by left. }
  destruct Hups as [Hups Hres]. rewrite Hups.
  split; [done|].
  split; [unfold Upload.upload_phase, upload_slots; by rewrite !length_fmap, length_seq|].
  split; [done|].
  rewrite (Zsum_fmap_const _ _ (dataSize fl)).
  - unfold Upload.upload_phase, upload_slots. by rewrite !length_fmap, length_seq.
  - intros i r Hi. rewrite Forall_lookup in Hall.
    destruct (Hall i r Hi) as (tr & -> & Hc). cbn [slot_bytes]. by rewrite Hc.
Qed.

(** The theorem on two streams of three bytes. *)
Lemma main_uploads_payload_witness :
  ∃ msg,
    Payload.generatePRData Scenario.memory (dataSize Scenario.fl_small) = Some msg ∧
    Z.of_nat (length msg) = dataSize Scenario.fl_small ∧
    (∃ c, main Scenario.fl_small 2 Scenario.memory Scenario.silent_peer []
          = Waiting (uploads (main Scenario.fl_small 2 Scenario.memory
                                Scenario.silent_peer [])) c
          ∨ ∃ out, main Scenario.fl_small 2 Scenario.memory Scenario.silent_peer []
                   = Finished (uploads (main Scenario.fl_small 2 Scenario.memory
                                          Scenario.silent_peer [])) c out) ∧
    length (uploads (main Scenario.fl_small 2 Scenario.memory Scenario.silent_peer []))
    = Z.to_nat (numberStream Scenario.fl_small) ∧
    Forall (λ r, ∃ tr, r = Upload.Ran tr Upload.Completed
                       ∧ concat (Upload.written tr) = msg)
      (uploads (main Scenario.fl_small 2 Scenario.memory Scenario.silent_peer [])) ∧
    Zsum ((λ r, Z.of_nat (length (slot_bytes r)))
            <$> uploads (main Scenario.fl_small 2 Scenario.memory
                           Scenario.silent_peer []))
    = Z.of_nat (Z.to_nat (numberStream Scenario.fl_small))
      * dataSize Scenario.fl_small.
Proof.
  apply main_uploads_payload.
  - reflexivity.
  - vm_compute. discriminate.
  - vm_compute. discriminate.
  - vm_compute. discriminate.
  - vm_compute. discriminate.
  - intros i _. split; [reflexivity|]. intros k q. reflexivity.
Defined.

Example small_run :
  main Scenario.fl_small 2 Scenario.memory Scenario.silent_peer
    (Scenario.round_robin 2 3)
  = Finished
      [Upload.Ran [Upload.SetWriteDeadline 30000000000; Upload.Write [143; 226; 70];
                   Upload.SetWriteDeadline 30000000000; Upload.Close]
         Upload.Completed;
       Upload.Ran [Upload.SetWriteDeadline 30000000000; Upload.Write [143; 226; 70];
                   Upload.SetWriteDeadline 30000000000; Upload.Close]
         Upload.Completed]
      (run Scenario.fl_small (down Scenario.silent_peer) (Scenario.round_robin 2 3)
         (init Scenario.fl_small))
      (Some [Report.Println "No data received."]).
Proof. vm_compute. reflexivity. Qed.

Example oversized_payload_ends_the_run :
  main {| numberStream := 2; dataSize := 2 ^ 62; downloadUni := false;
          readTO := 30 * Second; idleTO := 45 * Second |}
       2 (2 ^ 63) Scenario.silent_peer (Scenario.round_robin 2 3)
  = MakePanicked.
Proof. reflexivity. Qed.

End MainFacts.

(** ** Deadlines of the reads, and the report as a whole *)

Section DeadlineFacts.
Import Download.

Implicit Types (t : task) (s : shared) (c : config) (e : env) (fl : flags).

Lemma reads_armed_app fl (tr evs : list event) :
  reads_armed fl tr → forallb (λ ev, negb (is_read_event ev)) evs = true →
  reads_armed fl (tr ++ evs).
Proof.
  intros Htr Hevs k n re Hk.
  destruct (decide (k < length tr)%nat) as [Hlt|Hge].
  - rewrite lookup_app_l in Hk by done.
    destruct (Htr k n re Hk) as (k' & -> & Hk'). exists k'. split; [done|].
    rewrite lookup_app_l by lia. done.
  - rewrite lookup_app_r in Hk by lia.
    rewrite forallb_forall in Hevs.
    assert (Hin : In (EvRead n re) evs)
      by (apply list_elem_of_In; by eapply list_elem_of_lookup_2).
    by specialize (Hevs _ Hin).
Qed.

Lemma reads_armed_read fl (tr : list event) n re :
  reads_armed fl (tr ++ [EvSetReadDeadline (readTO fl)]) →
  reads_armed fl ((tr ++ [EvSetReadDeadline (readTO fl)]) ++ [EvRead n re]).
Proof.
  intros Htr k n' re' Hk.
  destruct (decide (k < length (tr ++ [EvSetReadDeadline (readTO fl)]))%nat)
    as [Hlt|Hge].
  - rewrite lookup_app_l in Hk by done.
    destruct (Htr k n' re' Hk) as (k' & -> & Hk'). exists k'. split; [done|].
    rewrite lookup_app_l by lia. done.
  - rewrite length_app in Hge. cbn in Hge.
    assert (k = S (length tr)) as ->.
    { apply lookup_lt_Some in Hk. rewrite !length_app in Hk. cbn in Hk. lia. }
    exists (length tr). split; [done|].
    rewrite <- app_assoc. rewrite lookup_app_r by lia. by rewrite Nat.sub_diag.
Qed.

Lemma task_step_arm_inv fl e t s t' s' :
  peer_inv e t → arm_inv fl e t → task_step fl e t s = Some (t', s') →
  arm_inv fl e t'.
Proof.
  intros (_ & _ & Hat) Harm Hs Hcap. destruct (Harm Hcap) as [Hreads Hlast].
  unfold task_step in Hs.
  assert (Hgo : ∀ p evs, forallb (λ ev, negb (is_read_event ev)) evs = true →
            (∀ d, p = Read d → ∃ tr', trace t ++ evs
                                      = tr' ++ [EvSetReadDeadline (readTO fl)]) →
            reads_armed fl (trace (goto t p evs)) ∧
            (∀ d, at_pc (goto t p evs) = Read d →
               ∃ tr', trace (goto t p evs) = tr' ++ [EvSetReadDeadline (readTO fl)])).
  { intros p evs Hevs Hp. cbn [goto trace at_pc]. split; [|done].
    by apply reads_armed_app. }
  destruct (at_pc t) as [ | err | err uerr | d | d | d n re | d n re | d n re tmp
                        | d re | d re | d | d | d tmp | d | | ] eqn:Hpc.
  - destruct (accept_bidi e); simplify_eq; by apply Hgo.
  - destruct (accept_uni e); simplify_eq; by apply Hgo.
  - simplify_eq. by apply Hgo.
  - destruct d; simplify_eq.
    + apply Hgo; [done|]. intros _ _. by eexists.
    + destruct Hat as ((Hb & _) & _).
      destruct Hcap as [Hc|Hb']; [|destruct Hb as [b Hb]; congruence].
      rewrite Hc. apply Hgo; [done|]. intros _ _. by eexists.
  - simplify_eq. cbn [trace at_pc]. split.
    + destruct (Hlast d eq_refl) as [tr' Htr]. rewrite Htr in *.
      by apply reads_armed_read.
    + intros d' Hd'. by destruct (0 <? rn (reads e (nreads t))).
  - destruct (locked s); simplify_eq. by apply Hgo.
  - simplify_eq. by apply Hgo.
  - simplify_eq. by apply Hgo.
  - simplify_eq. by apply Hgo.
  - simplify_eq. apply Hgo; [done|]. intros d' Hd'. rewrite after_read_exits in Hd'.
    by destruct (exits re).
  - destruct (locked s); simplify_eq. by apply Hgo.
  - simplify_eq. by apply Hgo.
  - simplify_eq. by apply Hgo.
  - simplify_eq. apply Hgo; [done|]. intros d' Hd'. by destruct d.
  - simplify_eq. by apply Hgo.
  - done.
Qed.

(** X16.  On a duplex stream, and on a one-way stream whose type has the
    method, no [Read] is ever issued without its deadline: in every
    trace every [Read] comes right after a [SetReadDeadline] of the read
    timeout from now, the first read and every read after a timeout
    alike. *)
Theorem every_read_has_deadline :
  ∀ fl envs sched (i : nat) t,
    tasks (run fl envs sched (init fl)) !! i = Some t →
    deadline_capable (envs i) →
    reads_armed fl (trace t).
Proof.
  intros fl envs sched i t Hi Hcap.
  assert (H : peer_inv (envs i) t ∧ arm_inv fl (envs i) t).
  { revert Hi.
    apply (run_tasks_sat (λ i t, peer_inv (envs i) t ∧ arm_inv fl (envs i) t) fl envs).
    - intros j tj s t' s' [Hp Ha] Hs. split.
      + by apply (task_step_peer fl (envs j) tj s t' s').
      + by apply (task_step_arm_inv fl (envs j) tj s t' s').
    - intros j tj ->%init_tasks. split; [apply peer_inv_init|].
      intros _. split; [|done]. intros k n re Hk. done. }
  by apply H.
Qed.

(** The theorem on the first of two duplex streams, run to the end. *)
Lemma every_read_has_deadline_witness :
  reads_armed Scenario.fl2
    (trace (default init_task
       (tasks (run Scenario.fl2 Scenario.envs_all_five (Scenario.round_robin 2 20)
                 (init Scenario.fl2)) !! 0%nat))).
Proof.
  apply (every_read_has_deadline Scenario.fl2 Scenario.envs_all_five
           (Scenario.round_robin 2 20) 0%nat).
  - vm_compute. reflexivity.
  - by left.
Defined.

Import Report.

(** X17.  The report stage never panics, whatever [total] and [times]
    are: the one integer division is behind the guard.  It prints either
    the no-data line alone, exactly when [times] is empty or [total] is
    zero, or the byte and stream counts, one speed line and the final
    line. *)
Theorem report_always_completes (total : Z) (times : list Z) :
  ∃ effs,
    report total times = Some effs ∧
    ((times = [] ∨ total = 0) ∧ effs = [Println "No data received."]
     ∨ (times ≠ [] ∧ total ≠ 0) ∧
       ∃ speed,
         filter (λ ef, negb (is_division ef)) effs
         = [PrintReceived total (Z.of_nat (length times)); PrintSpeed speed;
            Println "Test finished successfully."]).
Proof.
  destruct times as [|d times].
  - eexists. split; [reflexivity|]. left. split; [by left | done].
  - destruct (Z.eq_dec total 0) as [->|Hne].
    + eexists. split; [unfold report; by rewrite Z.eqb_refl, orb_true_r|].
      left. split; [by right | done].
    + rewrite report_effects by done. eexists. split; [reflexivity|].
      right. split; [done|]. by eexists.
Qed.

End DeadlineFacts.
